(** * XML serialization without namespaces, and the XML string lexer

    A shallow embedding of [XMLSerializerNoNSImpl] (the serializer of the
    DOM implementation that has no namespace support) together with the
    properties its specification states about it.

    - JavaScript strings are sequences of UTF-16 code units: a string is a
      [list N], a code unit an [N].  String literals of the source are
      written [lit "..."].
    - [throw] is modelled by the [Throw] constructor of [result]; a
      [try ... catch] by a match on the result.
    - The three character-class predicates the serializer imports from
      [../algorithm] are the methods of the class [XMLAlgorithm]. *)

From Stdlib Require Import Ascii String ZArith Lia.
From stdpp Require Import base option list gmap strings.

Set Default Proof Using "Type*".
Set Warnings "-register-all".

(** ** JavaScript strings *)

Abbreviation jsstring := (list N).

(** The code unit of an ASCII character. *)
Definition chr (a : ascii) : N := N_of_ascii a.
Arguments chr a%_char.

(** A string literal of the source. *)
Definition lit (s : string) : jsstring := chr <$> list_ascii_of_string s.

(** [c === "x"] for a one-character string [c]. *)
Definition is_chr (c : N) (a : ascii) : bool := N.eqb c (chr a).
Arguments is_chr c a%_char.

(** The empty string literal. *)
Definition empty : jsstring := [].

(** The two quote characters (U+0022 and U+0027). *)
Definition QUOT : N := 34.
Definition APOS : N := 39.

(** [s.startsWith(pat)] *)
Fixpoint startsWith (s pat : jsstring) {struct pat} : bool :=
  match pat, s with
  | [], _ => true
  | p :: pat', c :: s' => N.eqb p c && startsWith s' pat'
  | _ :: _, [] => false
  end.

(** [s.indexOf(pat)]: the least index at which [pat] occurs in [s],
    and [-1] when there is none. *)
Fixpoint indexOf_from (s pat : jsstring) (k : Z) : Z :=
  if startsWith s pat then k
  else match s with
       | [] => (-1)%Z
       | _ :: s' => indexOf_from s' pat (k + 1)%Z
       end.

Definition indexOf (s pat : jsstring) : Z := indexOf_from s pat 0.

(** [s.endsWith(pat)] *)
Definition endsWith (s pat : jsstring) : bool :=
  startsWith (reverse s) (reverse pat).

(** Truthiness of a string: the empty string is falsy. *)
Definition truthy (s : jsstring) : bool :=
  match s with [] => false | _ :: _ => true end.

(** [(/^xml$/i).test(s)]: without the [u] flag a case-insensitive match
    never maps a character outside ASCII to an ASCII one, and without the
    [m] flag [$] is the end of the input. *)
Definition test_xml_i (s : jsstring) : bool :=
  match s with
  | [x; m; l] =>
      (is_chr x "x" || is_chr x "X") && (is_chr m "m" || is_chr m "M")
      && (is_chr l "l" || is_chr l "L")
  | _ => false
  end.

(** ** Exceptions *)

(** One constructor for each [throw new Error(...)] of the serializer. *)
Inductive Error : Type :=
  | UnknownNodeType (nodeType : N)
  | InvalidElementLocalName
  | MissingDocumentElement
  | InvalidCommentData
  | InvalidTextData
  | InvalidDocTypePublicId
  | InvalidDocTypeSystemId
  | InvalidPITarget
  | InvalidPIData
  | InvalidCData
  | DuplicateAttributes
  | InvalidAttributeLocalName
  | InvalidAttributeValue.

(** The exception of the public entry point. *)
Inductive DOMException : Type :=
  | InvalidStateError.

Inductive result (E A : Type) : Type :=
  | Ok (a : A)
  | Throw (e : E).
Arguments Ok {E A} a.
Arguments Throw {E A} e.

#[global] Instance result_ret {E} : MRet (result E) := λ A a, Ok a.
#[global] Instance result_bind {E} : MBind (result E) := λ A B f m,
  match m with
  | Ok a => f a
  | Throw e => Throw e
  end.

(** ** The tree the serializer reads *)

Record Attr : Type := mkAttr {
  localName : jsstring;
  value : option jsstring
}.

(** A node, by the case of [switch (node.nodeType)] that it takes, with
    the fields the serializer reads.  [Unsupported] is a node whose
    [nodeType] is none of the eight cases (an attribute node given as the
    root, for instance). *)
Inductive Node : Type :=
  | Element (localName : jsstring) (attributes : list Attr)
      (childNodes : list Node)
  | Document (documentElement : option Node) (childNodes : list Node)
  | Comment (data : jsstring)
  | Text (data : jsstring)
  | DocumentFragment (childNodes : list Node)
  | DocumentType (name publicId systemId : jsstring)
  | ProcessingInstruction (target data : jsstring)
  | CData (data : jsstring)
  | Unsupported (nodeType : N).

(** [for (const childNode of childNodes) markup += f(childNode)] *)
Definition for_each_child {E} (f : Node → result E jsstring) :
    list Node → jsstring → result E jsstring :=
  fix loop (childNodes : list Node) (markup : jsstring) :=
    match childNodes with
    | [] => Ok markup
    | childNode :: rest =>
        s ← f childNode; loop rest (markup ++ s)
    end.

(** [for (let i = start; i < start + n; i++) st = body(i, st)], where the
    body may throw. *)
Fixpoint for_range {E St} (body : nat → St → result E St)
    (start n : nat) (st : St) : result E St :=
  match n with
  | O => Ok st
  | S n' => st' ← body start st; for_range body (S start) n' st'
  end.

(** The own property names of [Object.prototype]: what [key in {}]
    answers [true] for, whatever was stored in the object. *)
Definition Object_prototype : list jsstring :=
  lit <$> [ "constructor"; "__defineGetter__"; "__defineSetter__";
            "hasOwnProperty"; "__lookupGetter__"; "__lookupSetter__";
            "isPrototypeOf"; "propertyIsEnumerable"; "toString"; "valueOf";
            "__proto__"; "toLocaleString" ]%string.

(** [key in obj] for an object created by the literal [{}]: the own
    properties, and those of the prototype.  (Storing under [__proto__]
    creates no own property, and [in] answers [true] for it all the
    same.) *)
Definition js_in (key : jsstring) (obj : gmap jsstring bool) : bool :=
  bool_decide (is_Some (obj !! key)) || bool_decide (key ∈ Object_prototype).

(** ** The serializer *)

Class XMLAlgorithm : Type := {
  xml_isName : jsstring → bool;
  xml_isLegalChar : jsstring → bool;
  xml_isPubidChar : jsstring → bool
}.

Section Serializer.
Context `{XMLAlgorithm}.

Definition _serializeAttributeValue (value : option jsstring)
    (requireWellFormed : bool) : result Error jsstring :=
  if requireWellFormed
     && match value with Some v => negb (xml_isLegalChar v) | None => false end
  then Throw InvalidAttributeValue
  else
    match value with
    | None => Ok empty
    | Some value =>
        Ok (fold_left (λ result c,
              if N.eqb c QUOT then result ++ lit "&quot;"
              else if is_chr c "&" then result ++ lit "&amp;"
              else if is_chr c "<" then result ++ lit "&lt;"
              else if is_chr c ">" then result ++ lit "&gt;"
              else result ++ [c]) value empty)
    end.

Definition _serializeText (data : jsstring) (requireWellFormed : bool) :
    result Error jsstring :=
  if requireWellFormed && negb (xml_isLegalChar data)
  then Throw InvalidTextData
  else
    Ok (fold_left (λ markup c,
          if is_chr c "&" then markup ++ lit "&amp;"
          else if is_chr c "<" then markup ++ lit "&lt;"
          else if is_chr c ">" then markup ++ lit "&gt;"
          else markup ++ [c]) data empty).

(** [s.indexOf(pat) !== -1] *)
Definition includes (s pat : jsstring) : bool :=
  bool_decide (indexOf s pat ≠ (-1)%Z).

Definition _serializeAttributes (attributes : list Attr)
    (requireWellFormed : bool) : result Error jsstring :=
  let result := empty in
  let localNameSet : option (gmap jsstring bool) :=
    if requireWellFormed then Some ∅ else None in
  st ← for_range (λ i '(result, localNameSet),
      match attributes !! i with
      | None => Ok (result, localNameSet)
      | Some attr =>
          if requireWellFormed
             && match localNameSet with
                | Some obj => js_in (localName attr) obj
                | None => false
                end
          then Throw DuplicateAttributes
          else
            let localNameSet :=
              if requireWellFormed
              then (λ obj, <[localName attr := true]> obj) <$> localNameSet
              else localNameSet in
            if requireWellFormed
               && (includes (localName attr) (lit ":")
                   || negb (xml_isName (localName attr)))
            then Throw InvalidAttributeLocalName
            else
              v ← _serializeAttributeValue (value attr) requireWellFormed;
              Ok (result ++ (lit " " ++ localName attr ++ lit "=" ++ [QUOT]
                             ++ v ++ [QUOT]),
                  localNameSet)
      end) 0 (length attributes) (result, localNameSet);
  Ok (fst st).

Definition _serializeElement
    (_serializeNode : Node → bool → result Error jsstring)
    (localName : jsstring) (attributes : list Attr) (childNodes : list Node)
    (requireWellFormed : bool) : result Error jsstring :=
  if requireWellFormed
     && (includes localName (lit ":") || negb (xml_isName localName))
  then Throw InvalidElementLocalName
  else
    let skipEndTag := false in
    let qualifiedName := localName in
    let markup := lit "<" ++ qualifiedName in
    attrs ← _serializeAttributes attributes requireWellFormed;
    let markup := markup ++ attrs in
    let '(markup, skipEndTag) :=
      if bool_decide (length childNodes = 0)
      then (markup ++ lit "/", true)
      else (markup, skipEndTag) in
    let markup := markup ++ lit ">" in
    if skipEndTag then Ok markup
    else
      markup ← for_each_child (λ childNode,
                 _serializeNode childNode requireWellFormed) childNodes markup;
      let markup := markup ++ (lit "</" ++ qualifiedName ++ lit ">") in
      Ok markup.

Definition _serializeDocument
    (_serializeNode : Node → bool → result Error jsstring)
    (documentElement : option Node) (childNodes : list Node)
    (requireWellFormed : bool) : result Error jsstring :=
  if requireWellFormed
     && match documentElement with None => true | Some _ => false end
  then Throw MissingDocumentElement
  else
    let serializedDocument := empty in
    for_each_child (λ childNode,
      _serializeNode childNode requireWellFormed) childNodes serializedDocument.

Definition _serializeComment (data : jsstring) (requireWellFormed : bool) :
    result Error jsstring :=
  if requireWellFormed
     && (negb (xml_isLegalChar data) || includes data (lit "--")
         || endsWith data (lit "-"))
  then Throw InvalidCommentData
  else Ok (lit "<!--" ++ data ++ lit "-->").

Definition _serializeDocumentFragment
    (_serializeNode : Node → bool → result Error jsstring)
    (childNodes : list Node) (requireWellFormed : bool) :
    result Error jsstring :=
  let markup := empty in
  for_each_child (λ childNode,
    _serializeNode childNode requireWellFormed) childNodes markup.

Definition _serializeDocumentType (name publicId systemId : jsstring)
    (requireWellFormed : bool) : result Error jsstring :=
  if requireWellFormed && negb (xml_isPubidChar publicId)
  then Throw InvalidDocTypePublicId
  else if requireWellFormed
          && (negb (xml_isLegalChar systemId)
              || (includes systemId [QUOT] && includes systemId [APOS]))
  then Throw InvalidDocTypeSystemId
  else
    Ok (if truthy publicId && truthy systemId then
          lit "<!DOCTYPE " ++ name ++ lit " PUBLIC " ++ [QUOT] ++ publicId
            ++ [QUOT] ++ lit " " ++ [QUOT] ++ systemId ++ [QUOT] ++ lit ">"
        else if truthy publicId then
          lit "<!DOCTYPE " ++ name ++ lit " PUBLIC " ++ [QUOT] ++ publicId
            ++ [QUOT] ++ lit ">"
        else if truthy systemId then
          lit "<!DOCTYPE " ++ name ++ lit " SYSTEM " ++ [QUOT] ++ systemId
            ++ [QUOT] ++ lit ">"
        else
          lit "<!DOCTYPE " ++ name ++ lit ">").

Definition _serializeProcessingInstruction (target data : jsstring)
    (requireWellFormed : bool) : result Error jsstring :=
  if requireWellFormed && (includes target (lit ":") || test_xml_i target)
  then Throw InvalidPITarget
  else if requireWellFormed
          && (negb (xml_isLegalChar data) || includes data (lit "?>"))
  then Throw InvalidPIData
  else Ok (lit "<?" ++ target ++ lit " " ++ data ++ lit "?>").

Definition _serializeCData (data : jsstring) (requireWellFormed : bool) :
    result Error jsstring :=
  if requireWellFormed && includes data (lit "]]>")
  then Throw InvalidCData
  else Ok (lit "<![CDATA[" ++ data ++ lit "]]>").

Fixpoint _serializeNode (node : Node) (requireWellFormed : bool) :
    result Error jsstring :=
  match node with
  | Element localName attributes childNodes =>
      _serializeElement _serializeNode localName attributes childNodes
        requireWellFormed
  | Document documentElement childNodes =>
      _serializeDocument _serializeNode documentElement childNodes
        requireWellFormed
  | Comment data => _serializeComment data requireWellFormed
  | Text data => _serializeText data requireWellFormed
  | DocumentFragment childNodes =>
      _serializeDocumentFragment _serializeNode childNodes requireWellFormed
  | DocumentType name publicId systemId =>
      _serializeDocumentType name publicId systemId requireWellFormed
  | ProcessingInstruction target data =>
      _serializeProcessingInstruction target data requireWellFormed
  | CData data => _serializeCData data requireWellFormed
  | Unsupported nodeType => Throw (UnknownNodeType nodeType)
  end.

(** [try { return ... } catch { throw new InvalidStateError() }] *)
Definition _xmlSerialization (node : Node) (requireWellFormed : bool) :
    result DOMException jsstring :=
  match _serializeNode node requireWellFormed with
  | Ok s => Ok s
  | Throw _ => Throw InvalidStateError
  end.

Definition serializeToString (root : Node) : result DOMException jsstring :=
  _xmlSerialization root false.

End Serializer.

(** ** The character classes of XML 1.0 *)

(** Modelled from the spec: the three predicates of [../algorithm], whose
    source is missing, as the productions Char, Name and PubidChar of
    XML 1.0 read over UTF-16 code units.  A surrogate pair stands for a
    character of the supplementary planes.  The theorems below hold for
    every instance of [XMLAlgorithm]; this one is the instance at which
    they are evaluated on concrete trees. *)
Module XML10.

Definition between (lo hi c : N) : bool := (lo <=? c)%N && (c <=? hi)%N.

Definition high_surrogate : N → bool := between 0xD800 0xDBFF.
Definition low_surrogate : N → bool := between 0xDC00 0xDFFF.

Definition Char_bmp (c : N) : bool :=
  N.eqb c 0x9 || N.eqb c 0xA || N.eqb c 0xD
  || between 0x20 0xD7FF c || between 0xE000 0xFFFD c.

(** Modelled from the spec: [xml_isLegalChar], missing from the sources;
    every character of [s] matches the production Char. *)
Fixpoint isLegalChar (s : jsstring) : bool :=
  match s with
  | [] => true
  | c :: s' =>
      if Char_bmp c then isLegalChar s'
      else if high_surrogate c then
        match s' with
        | d :: s'' => low_surrogate d && isLegalChar s''
        | [] => false
        end
      else false
  end.

Definition NameStartChar_bmp (c : N) : bool :=
  is_chr c ":" || between (chr "A") (chr "Z") c || is_chr c "_"
  || between (chr "a") (chr "z") c
  || between 0xC0 0xD6 c || between 0xD8 0xF6 c || between 0xF8 0x2FF c
  || between 0x370 0x37D c || between 0x37F 0x1FFF c
  || between 0x200C 0x200D c || between 0x2070 0x218F c
  || between 0x2C00 0x2FEF c || between 0x3001 0xD7FF c
  || between 0xF900 0xFDCF c || between 0xFDF0 0xFFFD c.

Definition NameChar_bmp (c : N) : bool :=
  NameStartChar_bmp c || is_chr c "-" || is_chr c "."
  || between (chr "0") (chr "9") c || N.eqb c 0xB7
  || between 0x300 0x36F c || between 0x203F 0x2040 c.

(** The code points [#x10000-#xEFFFF] are the pairs whose high surrogate
    is at most [0xDB7F]. *)
Fixpoint NameChars (s : jsstring) : bool :=
  match s with
  | [] => true
  | c :: s' =>
      if NameChar_bmp c then NameChars s'
      else if between 0xD800 0xDB7F c then
        match s' with
        | d :: s'' => low_surrogate d && NameChars s''
        | [] => false
        end
      else false
  end.

(** Modelled from the spec: [xml_isName], missing from the sources; [s]
    matches the production Name. *)
Definition isName (s : jsstring) : bool :=
  match s with
  | [] => false
  | c :: s' =>
      if NameStartChar_bmp c then NameChars s'
      else if between 0xD800 0xDB7F c then
        match s' with
        | d :: s'' => low_surrogate d && NameChars s''
        | [] => false
        end
      else false
  end.

Definition PubidChar (c : N) : bool :=
  N.eqb c 0x20 || N.eqb c 0xD || N.eqb c 0xA
  || between (chr "a") (chr "z") c || between (chr "A") (chr "Z") c
  || between (chr "0") (chr "9") c
  || bool_decide (c ∈ lit "-'()+,./:=?;!*#@$_%").

(** Modelled from the spec: [xml_isPubidChar], missing from the sources;
    every character of [s] matches the production PubidChar. *)
Definition isPubidChar (s : jsstring) : bool := forallb PubidChar s.

#[export] Instance algorithm : XMLAlgorithm := {|
  xml_isName := isName;
  xml_isLegalChar := isLegalChar;
  xml_isPubidChar := isPubidChar
|}.

End XML10.

(** ** The XML string lexer *)

(** Modelled from the spec: the class [XMLStringLexer], of which only the
    test suite is among the sources.  The lexer below follows section 4.1
    of the specification: a text buffer with a forward cursor, one token
    per call of [nextToken], a [LexError] on every malformed construct.
    Where the specification leaves the end of a name open, a name runs up
    to the next white space or delimiter of the construct it is part
    of. *)
Module Lexer.

Inductive Token : Type :=
  | DeclarationToken (version encoding standalone : jsstring)
  | DocTypeToken (name publicId systemId : jsstring)
  | ElementToken (name : jsstring) (attributes : list (jsstring * jsstring))
      (selfClosing : bool)
  | ClosingTagToken (name : jsstring)
  | CommentToken (data : jsstring)
  | PIToken (target data : jsstring)
  | CDATAToken (data : jsstring)
  | TextToken (data : jsstring)
  | EOFToken.

Inductive LexError : Type :=
  | MkLexError (reason : string).

Abbreviation lex A := (result LexError A).

Record XMLStringLexer : Type := mkLexer {
  _str : jsstring;
  _index : nat
}.

Definition isSpace (c : N) : bool :=
  is_chr c " " || N.eqb c 0x9 || N.eqb c 0xA || N.eqb c 0xD.

Fixpoint skipSpace (s : jsstring) : jsstring :=
  match s with
  | c :: s' => if isSpace c then skipSpace s' else s
  | [] => []
  end.

(** The characters before the first one that satisfies [stop], and the
    rest of the input from that character on. *)
Fixpoint takeUntil (stop : N → bool) (s : jsstring) : jsstring * jsstring :=
  match s with
  | [] => ([], [])
  | c :: s' =>
      if stop c then ([], s)
      else let '(taken, rest) := takeUntil stop s' in (c :: taken, rest)
  end.

(** The characters before the first occurrence of [pat], and the rest of
    the input after that occurrence; [None] when [pat] does not occur. *)
Fixpoint takeUntilStr (pat s : jsstring) : option (jsstring * jsstring) :=
  if startsWith s pat then Some ([], drop (length pat) s)
  else match s with
       | [] => None
       | c :: s' =>
           '(taken, rest) ← takeUntilStr pat s'; Some (c :: taken, rest)
       end.

(** A value wrapped in matching single or double quotes. *)
Definition quoted (s : jsstring) : lex (jsstring * jsstring) :=
  match s with
  | q :: s' =>
      if N.eqb q QUOT || N.eqb q APOS then
        match takeUntilStr [q] s' with
        | Some r => Ok r
        | None => Throw (MkLexError "unterminated quoted value")
        end
      else Throw (MkLexError "value is not quoted")
  | [] => Throw (MkLexError "value is not quoted")
  end.

(** [name = "value"], with optional white space around the equals sign. *)
Definition attribute (stop : N → bool) (s : jsstring) :
    lex (jsstring * jsstring * jsstring) :=
  let '(name, s) := takeUntil (λ c, isSpace c || is_chr c "=" || stop c) s in
  match skipSpace s with
  | c :: s' =>
      if is_chr c "=" then
        '(v, rest) ← quoted (skipSpace s'); Ok (name, v, rest)
      else Throw (MkLexError "missing equals sign")
  | [] => Throw (MkLexError "missing equals sign")
  end.

(** [attributes[name] = v] on a JavaScript object: a name already there
    keeps its place and takes the new value. *)
Fixpoint set_attribute (name v : jsstring)
    (attributes : list (jsstring * jsstring)) : list (jsstring * jsstring) :=
  match attributes with
  | [] => [(name, v)]
  | (n, w) :: rest =>
      if bool_decide (n = name) then (n, v) :: rest
      else (n, w) :: set_attribute name v rest
  end.

Definition declaration (s : jsstring) : lex (Token * jsstring) :=
  let stop c := is_chr c "?" in
  let finish (s : jsstring) (tok : Token) : lex (Token * jsstring) :=
    if startsWith (skipSpace s) (lit "?>")
    then Ok (tok, drop 2 (skipSpace s))
    else Throw (MkLexError "unterminated declaration") in
  '(name, version, s) ← attribute stop (skipSpace s);
  if negb (bool_decide (name = lit "version"))
  then Throw (MkLexError "declaration must start with version")
  else if startsWith (skipSpace s) (lit "?>")
  then finish s (DeclarationToken version empty empty)
  else
    '(name, v, s) ← attribute stop (skipSpace s);
    if bool_decide (name = lit "encoding") then
      if startsWith (skipSpace s) (lit "?>")
      then finish s (DeclarationToken version v empty)
      else
        '(name, w, s) ← attribute stop (skipSpace s);
        if bool_decide (name = lit "standalone")
        then finish s (DeclarationToken version v w)
        else Throw (MkLexError "unknown declaration attribute")
    else if bool_decide (name = lit "standalone")
    then finish s (DeclarationToken version empty v)
    else Throw (MkLexError "unknown declaration attribute").

Definition doctype (s : jsstring) : lex (Token * jsstring) :=
  let '(name, s) :=
    takeUntil (λ c, isSpace c || is_chr c "[" || is_chr c ">") (skipSpace s) in
  let s := skipSpace s in
  '(publicId, systemId, s) ←
    (if startsWith s (lit "PUBLIC") then
       '(p, s) ← quoted (skipSpace (drop 6 s));
       '(q, s) ← quoted (skipSpace s);
       Ok (p, q, s)
     else if startsWith s (lit "SYSTEM") then
       '(q, s) ← quoted (skipSpace (drop 6 s));
       Ok (empty, q, s)
     else Ok (empty, empty, s));
  s ← match skipSpace s with
      | c :: s' =>
          if is_chr c "[" then
            match takeUntilStr (lit "]") s' with
            | Some (_, rest) => Ok rest
            | None => Throw (MkLexError "unterminated internal subset")
            end
          else Ok (c :: s')
      | [] => Ok []
      end;
  match skipSpace s with
  | c :: s' =>
      if is_chr c ">" then Ok (DocTypeToken name publicId systemId, s')
      else Throw (MkLexError "unterminated doctype")
  | [] => Throw (MkLexError "unterminated doctype")
  end.

Definition comment (s : jsstring) : lex (Token * jsstring) :=
  match takeUntilStr (lit "-->") s with
  | Some (data, rest) => Ok (CommentToken data, rest)
  | None => Throw (MkLexError "unterminated comment")
  end.

Definition cdata (s : jsstring) : lex (Token * jsstring) :=
  match takeUntilStr (lit "]]>") s with
  | Some (data, rest) => Ok (CDATAToken data, rest)
  | None => Throw (MkLexError "unterminated CDATA section")
  end.

Definition pi (s : jsstring) : lex (Token * jsstring) :=
  match takeUntilStr (lit "?>") s with
  | Some (body, rest) =>
      let '(target, data) := takeUntil isSpace body in
      Ok (PIToken target (skipSpace data), rest)
  | None => Throw (MkLexError "unterminated processing instruction")
  end.

Definition closeTag (s : jsstring) : lex (Token * jsstring) :=
  let '(name, s) := takeUntil (λ c, isSpace c || is_chr c ">") s in
  match skipSpace s with
  | c :: s' =>
      if is_chr c ">" then Ok (ClosingTagToken name, s')
      else Throw (MkLexError "unterminated closing tag")
  | [] => Throw (MkLexError "unterminated closing tag")
  end.

(** The attribute pairs of an open tag, up to its [/>] or [>].  Every
    round consumes input, so the length of the input is fuel enough. *)
Fixpoint openTagAttributes (fuel : nat) (s : jsstring)
    (attributes : list (jsstring * jsstring)) :
    lex (list (jsstring * jsstring) * bool * jsstring) :=
  let s := skipSpace s in
  if startsWith s (lit "/>") then Ok (attributes, true, drop 2 s)
  else
    match s with
    | [] => Throw (MkLexError "unterminated element tag")
    | c :: s' =>
        if is_chr c ">" then Ok (attributes, false, s')
        else
          match fuel with
          | O => Throw (MkLexError "unterminated element tag")
          | S fuel' =>
              '(name, v, rest) ←
                attribute (λ c, is_chr c "/" || is_chr c ">") s;
              openTagAttributes fuel' rest (set_attribute name v attributes)
          end
    end.

Definition openTag (s : jsstring) : lex (Token * jsstring) :=
  let '(name, s) :=
    takeUntil (λ c, isSpace c || is_chr c "/" || is_chr c ">") s in
  '(attributes, selfClosing, rest) ← openTagAttributes (length s) s [];
  Ok (ElementToken name attributes selfClosing, rest).

Definition text (s : jsstring) : lex (Token * jsstring) :=
  let '(data, rest) := takeUntil (λ c, is_chr c "<") s in
  Ok (TextToken data, rest).

(** Modelled from the spec: [XMLStringLexer.nextToken], missing from the
    sources.  The next token, chosen by the literal prefix at the cursor,
    and the lexer with its cursor past that token; the end-of-input marker
    when the cursor is at the end of the buffer. *)
Definition nextToken (lexer : XMLStringLexer) : lex (Token * XMLStringLexer) :=
  let s := drop (_index lexer) (_str lexer) in
  match s with
  | [] => Ok (EOFToken, lexer)
  | _ :: _ =>
      '(token, rest) ←
        (if startsWith s (lit "<?xml") then declaration (drop 5 s)
         else if startsWith s (lit "<!DOCTYPE") then doctype (drop 9 s)
         else if startsWith s (lit "<!--") then comment (drop 4 s)
         else if startsWith s (lit "<![CDATA[") then cdata (drop 9 s)
         else if startsWith s (lit "<?") then pi (drop 2 s)
         else if startsWith s (lit "</") then closeTag (drop 2 s)
         else if startsWith s (lit "<") then openTag (drop 1 s)
         else text s);
      Ok (token, mkLexer (_str lexer) (length (_str lexer) - length rest))
  end.

End Lexer.

(** ** What the specification says, in its own words *)

(** [pat] occurs in [s] as a substring. *)
Definition occurs_in (pat s : jsstring) : Prop :=
  ∃ before after, s = before ++ pat ++ after.

(** Text escaping: [&], [<] and [>] are replaced, nothing else is. *)
Definition text_entity (c : N) : jsstring :=
  if is_chr c "&" then lit "&amp;"
  else if is_chr c "<" then lit "&lt;"
  else if is_chr c ">" then lit "&gt;"
  else [c].

Definition escape_text (data : jsstring) : jsstring :=
  data ≫= text_entity.

(** Attribute value escaping: the double quote is replaced as well. *)
Definition attribute_entity (c : N) : jsstring :=
  if is_chr c "&" then lit "&amp;"
  else if N.eqb c QUOT then lit "&quot;"
  else if is_chr c "<" then lit "&lt;"
  else if is_chr c ">" then lit "&gt;"
  else [c].

Definition escape_attribute (v : jsstring) : jsstring :=
  v ≫= attribute_entity.

(** One attribute as it is emitted: [ name="escapedValue"]. *)
Definition attribute_markup (attr : Attr) : jsstring :=
  lit " " ++ localName attr ++ lit "=" ++ [QUOT]
  ++ escape_attribute (default empty (value attr)) ++ [QUOT].

(** The four forms of a document type declaration. *)
Definition doctype_markup (name publicId systemId : jsstring) : jsstring :=
  match publicId, systemId with
  | _ :: _, _ :: _ =>
      lit "<!DOCTYPE " ++ name ++ lit " PUBLIC " ++ [QUOT] ++ publicId
      ++ [QUOT] ++ lit " " ++ [QUOT] ++ systemId ++ [QUOT] ++ lit ">"
  | _ :: _, [] =>
      lit "<!DOCTYPE " ++ name ++ lit " PUBLIC " ++ [QUOT] ++ publicId
      ++ [QUOT] ++ lit ">"
  | [], _ :: _ =>
      lit "<!DOCTYPE " ++ name ++ lit " SYSTEM " ++ [QUOT] ++ systemId
      ++ [QUOT] ++ lit ">"
  | [], [] => lit "<!DOCTYPE " ++ name ++ lit ">"
  end.

(** Serialization as plain string concatenation, with no check at all:
    the data of every node is emitted as it is, text and attribute values
    with their entity replacements. *)
Fixpoint markup (node : Node) : jsstring :=
  match node with
  | Element localName attributes childNodes =>
      lit "<" ++ localName ++ concat (attribute_markup <$> attributes)
      ++ match childNodes with
         | [] => lit "/>"
         | _ :: _ =>
             lit ">" ++ concat (markup <$> childNodes)
             ++ lit "</" ++ localName ++ lit ">"
         end
  | Document _ childNodes => concat (markup <$> childNodes)
  | Comment data => lit "<!--" ++ data ++ lit "-->"
  | Text data => escape_text data
  | DocumentFragment childNodes => concat (markup <$> childNodes)
  | DocumentType name publicId systemId =>
      doctype_markup name publicId systemId
  | ProcessingInstruction target data =>
      lit "<?" ++ target ++ lit " " ++ data ++ lit "?>"
  | CData data => lit "<![CDATA[" ++ data ++ lit "]]>"
  | Unsupported _ => empty
  end.

(** The [nodeType] of the first node, in tree order, that is of none of
    the eight node categories. *)
Fixpoint first_unsupported (node : Node) : option N :=
  let among := fix among (childNodes : list Node) : option N :=
    match childNodes with
    | [] => None
    | childNode :: rest =>
        match first_unsupported childNode with
        | Some k => Some k
        | None => among rest
        end
    end in
  match node with
  | Element _ _ childNodes => among childNodes
  | Document _ childNodes => among childNodes
  | DocumentFragment childNodes => among childNodes
  | Unsupported nodeType => Some nodeType
  | _ => None
  end.

(** Every node of the tree is of one of the eight node categories of the
    data model. *)
Definition supported (node : Node) : Prop := first_unsupported node = None.

(** The same, for a list of siblings. *)
Fixpoint first_unsupported_among (childNodes : list Node) : option N :=
  match childNodes with
  | [] => None
  | childNode :: rest =>
      match first_unsupported childNode with
      | Some k => Some k
      | None => first_unsupported_among rest
      end
  end.

Section Violations.
Context `{XMLAlgorithm}.

(** The well-formedness constraints of section 4.2, one constructor for
    each, and [V_child] for a violation further down the tree. *)
Inductive Violation : Node → Prop :=
  | V_element_colon ln attrs cs :
      occurs_in (lit ":") ln → Violation (Element ln attrs cs)
  | V_element_name ln attrs cs :
      xml_isName ln = false → Violation (Element ln attrs cs)
  | V_attribute_duplicate ln attrs cs i j a b :
      i < j → attrs !! i = Some a → attrs !! j = Some b →
      localName a = localName b → Violation (Element ln attrs cs)
  | V_attribute_colon ln attrs cs a :
      a ∈ attrs → occurs_in (lit ":") (localName a) →
      Violation (Element ln attrs cs)
  | V_attribute_name ln attrs cs a :
      a ∈ attrs → xml_isName (localName a) = false →
      Violation (Element ln attrs cs)
  | V_attribute_value ln attrs cs a v :
      a ∈ attrs → value a = Some v → xml_isLegalChar v = false →
      Violation (Element ln attrs cs)
  | V_text data :
      xml_isLegalChar data = false → Violation (Text data)
  | V_comment_char data :
      xml_isLegalChar data = false → Violation (Comment data)
  | V_comment_hyphens data :
      occurs_in (lit "--") data → Violation (Comment data)
  | V_comment_end data :
      lit "-" `suffix_of` data → Violation (Comment data)
  | V_pi_target_colon target data :
      occurs_in (lit ":") target →
      Violation (ProcessingInstruction target data)
  | V_pi_target_xml target data :
      test_xml_i target = true →
      Violation (ProcessingInstruction target data)
  | V_pi_data_char target data :
      xml_isLegalChar data = false →
      Violation (ProcessingInstruction target data)
  | V_pi_data_end target data :
      occurs_in (lit "?>") data →
      Violation (ProcessingInstruction target data)
  | V_cdata_end data :
      occurs_in (lit "]]>") data → Violation (CData data)
  | V_doctype_publicId name publicId systemId :
      xml_isPubidChar publicId = false →
      Violation (DocumentType name publicId systemId)
  | V_doctype_systemId_char name publicId systemId :
      xml_isLegalChar systemId = false →
      Violation (DocumentType name publicId systemId)
  | V_doctype_systemId_quotes name publicId systemId :
      QUOT ∈ systemId → APOS ∈ systemId →
      Violation (DocumentType name publicId systemId)
  | V_document_element cs :
      Violation (Document None cs)
  | V_child_of_element ln attrs cs c :
      c ∈ cs → Violation c → Violation (Element ln attrs cs)
  | V_child_of_document de cs c :
      c ∈ cs → Violation c → Violation (Document de cs)
  | V_child_of_fragment cs c :
      c ∈ cs → Violation c → Violation (DocumentFragment cs).

(** One round of the loop of [_serializeAttributes], for the attribute
    the index designates. *)
Definition attribute_step (requireWellFormed : bool) (attr : Attr)
    (st : jsstring * option (gmap jsstring bool)) :
    result Error (jsstring * option (gmap jsstring bool)) :=
  let '(result, localNameSet) := st in
  if requireWellFormed
     && match localNameSet with
        | Some obj => js_in (localName attr) obj
        | None => false
        end
  then Throw DuplicateAttributes
  else
    let localNameSet :=
      if requireWellFormed
      then (λ obj, <[localName attr := true]> obj) <$> localNameSet
      else localNameSet in
    if requireWellFormed
       && (includes (localName attr) (lit ":")
           || negb (xml_isName (localName attr)))
    then Throw InvalidAttributeLocalName
    else
      v ← _serializeAttributeValue (value attr) requireWellFormed;
      Ok (result ++ (lit " " ++ localName attr ++ lit "=" ++ [QUOT]
                     ++ v ++ [QUOT]),
          localNameSet).

(** The loop over the attributes, one round after the other. *)
Fixpoint attribute_rounds (requireWellFormed : bool) (attrs : list Attr)
    (st : jsstring * option (gmap jsstring bool)) :
    result Error (jsstring * option (gmap jsstring bool)) :=
  match attrs with
  | [] => Ok st
  | attr :: rest =>
      st' ← attribute_step requireWellFormed attr st;
      attribute_rounds requireWellFormed rest st'
  end.

End Violations.

(** The failures of the conformance checks: every failure but that of a
    node of an unknown category. *)
Definition conformance_failure (e : Error) : Prop :=
  ∀ k, e ≠ UnknownNodeType k.

(** ** More of what the serializer accepts *)

(** [c.toLowerCase()] for a code unit of the ASCII range. *)
Definition ascii_lower (c : N) : N :=
  if XML10.between (chr "A") (chr "Z") c then (c + 32)%N else c.

(** Some element of the tree has an attribute named like a property that
    every object inherits. *)
Inductive InheritedName : Node → Prop :=
  | I_attribute ln attrs cs a :
      a ∈ attrs → localName a ∈ Object_prototype →
      InheritedName (Element ln attrs cs)
  | I_child_of_element ln attrs cs c :
      c ∈ cs → InheritedName c → InheritedName (Element ln attrs cs)
  | I_child_of_document de cs c :
      c ∈ cs → InheritedName c → InheritedName (Document de cs)
  | I_child_of_fragment cs c :
      c ∈ cs → InheritedName c → InheritedName (DocumentFragment cs).

(** ** Object pool and caches *)

(** A JavaScript [Map]: its entries in insertion order, no key twice. *)
Module JSMap.
Section JSMap.
Context {K V : Type} `{EqDecision K}.

(** [m.get(k)], [None] for [undefined]. *)
Fixpoint get (m : list (K * V)) (k : K) : option V :=
  match m with
  | [] => None
  | (k', v) :: m' => if decide (k' = k) then Some v else get m' k
  end.

(** [m.set(k, v)]: a key already there keeps its place. *)
Fixpoint set (m : list (K * V)) (k : K) (v : V) : list (K * V) :=
  match m with
  | [] => [(k, v)]
  | (k', v') :: m' =>
      if decide (k' = k) then (k', v) :: m' else (k', v') :: set m' k v
  end.

(** [m.delete(k)] *)
Fixpoint delete (m : list (K * V)) (k : K) : list (K * V) :=
  match m with
  | [] => []
  | (k', v') :: m' =>
      if decide (k' = k) then m' else (k', v') :: delete m' k
  end.

(** [m.size] *)
Definition size (m : list (K * V)) : nat := length m.

(** [m.delete(m.keys().next().value)]: the first key in insertion
    order goes; nothing happens to an empty map. *)
Definition delete_first (m : list (K * V)) : list (K * V) :=
  match m with
  | [] => []
  | (firstKey, _) :: _ => delete m firstKey
  end.

End JSMap.
End JSMap.

Module Pool.

(** Objects live in a store and are handed around by reference. *)
Abbreviation Ref := nat.

Class PoolableNode (T : Type) : Type := _reset : T → T.

Section ObjectPool.
Context {T : Type} `{PoolableNode T}.

Record ObjectPool : Type := mkObjectPool {
  _pool : list Ref;
  _factory : list T → Ref * list T;
  _maxSize : nat
}.

(** [constructor(factory, maxSize = 1000)] *)
Definition new_ObjectPool (factory : list T → Ref * list T)
    (maxSize : option nat) : ObjectPool :=
  mkObjectPool [] factory (default 1000 maxSize).

(** [array.pop()]: the last element, taken off the array. *)
Definition pop (a : list Ref) : option Ref * list Ref :=
  match reverse a with
  | [] => (None, a)
  | x :: rest => (Some x, reverse rest)
  end.

(** [pop] gives an object whenever the length is positive; without one,
    the factory is called. *)
Definition acquire (p : ObjectPool) (heap : list T) :
    Ref * ObjectPool * list T :=
  match (if bool_decide (0 < length (_pool p)) then pop (_pool p)
         else (None, _pool p)) with
  | (Some obj, pool) =>
      (obj, mkObjectPool pool (_factory p) (_maxSize p), heap)
  | (None, _) =>
      let '(obj, heap) := _factory p heap in (obj, p, heap)
  end.

Definition release (p : ObjectPool) (obj : Ref) (heap : list T) :
    ObjectPool * list T :=
  if bool_decide (length (_pool p) < _maxSize p) then
    let heap := alter _reset obj heap in
    (mkObjectPool (_pool p ++ [obj]) (_factory p) (_maxSize p), heap)
  else (p, heap).

Definition clear (p : ObjectPool) : ObjectPool :=
  mkObjectPool [] (_factory p) (_maxSize p).

Definition size (p : ObjectPool) : nat := length (_pool p).

(** [createNodePool(factory, maxSize?)] *)
Definition createNodePool (factory : list T → Ref * list T)
    (maxSize : option nat) : ObjectPool :=
  new_ObjectPool factory maxSize.

End ObjectPool.
Arguments ObjectPool T : clear implicits.
End Pool.

Module Cache.

Definition _maxCacheSize : nat := 500.

(** A key given to [invalidateProperty] counts when it is there and is
    not the empty string. *)
Definition key_given (key : option jsstring) : option jsstring :=
  match key with
  | Some (c :: k) => Some (c :: k)
  | _ => None
  end.

Section NodeCache.
Context {Node Value Traversal : Type} `{EqDecision Node}.

Record NodeCache : Type := mkNodeCache {
  _propertyCache : list (Node * list (jsstring * Value));
  _traversalCache : list (Node * Traversal)
}.

Definition new_NodeCache : NodeCache := mkNodeCache [] [].

Definition getProperty (c : NodeCache) (node : Node) (key : jsstring) :
    option Value :=
  match JSMap.get (_propertyCache c) node with
  | Some nodeCache => JSMap.get nodeCache key
  | None => None
  end.

(** The inner map is an object of its own: what [nodeCache.set] does to
    it shows in the entry of the outer map, which keeps its place. *)
Definition setProperty (c : NodeCache) (node : Node) (key : jsstring)
    (value : Value) : NodeCache :=
  match JSMap.get (_propertyCache c) node with
  | Some nodeCache =>
      mkNodeCache
        (JSMap.set (_propertyCache c) node (JSMap.set nodeCache key value))
        (_traversalCache c)
  | None =>
      let propertyCache :=
        if bool_decide (_maxCacheSize ≤ JSMap.size (_propertyCache c))
        then JSMap.delete_first (_propertyCache c)
        else _propertyCache c in
      let nodeCache := [] in
      let propertyCache := JSMap.set propertyCache node nodeCache in
      mkNodeCache
        (JSMap.set propertyCache node (JSMap.set nodeCache key value))
        (_traversalCache c)
  end.

Definition invalidateProperty (c : NodeCache) (node : Node)
    (key : option jsstring) : NodeCache :=
  match key_given key with
  | Some key =>
      match JSMap.get (_propertyCache c) node with
      | Some nodeCache =>
          mkNodeCache
            (JSMap.set (_propertyCache c) node (JSMap.delete nodeCache key))
            (_traversalCache c)
      | None => c
      end
  | None =>
      mkNodeCache (JSMap.delete (_propertyCache c) node) (_traversalCache c)
  end.

Definition getTraversal (c : NodeCache) (node : Node) : option Traversal :=
  JSMap.get (_traversalCache c) node.

Definition setTraversal (c : NodeCache) (node : Node) (result : Traversal) :
    NodeCache :=
  let traversalCache :=
    if bool_decide (_maxCacheSize ≤ JSMap.size (_traversalCache c))
    then JSMap.delete_first (_traversalCache c)
    else _traversalCache c in
  mkNodeCache (_propertyCache c) (JSMap.set traversalCache node result).

(** [invalidateTraversal(node?)], [None] for a call without a node. *)
Definition invalidateTraversal (c : NodeCache) (node : option Node) :
    NodeCache :=
  match node with
  | Some node =>
      mkNodeCache (_propertyCache c) (JSMap.delete (_traversalCache c) node)
  | None => mkNodeCache (_propertyCache c) []
  end.

Definition clear (c : NodeCache) : NodeCache := mkNodeCache [] [].

End NodeCache.
Arguments NodeCache Node Value Traversal : clear implicits.

Section AttributeCache.
Context {Element Attribute : Type} `{EqDecision Element}.

Record AttributeCache : Type := mkAttributeCache {
  _cache : list (Element * list (jsstring * Attribute))
}.

Definition new_AttributeCache : AttributeCache := mkAttributeCache [].

Definition get (c : AttributeCache) (element : Element) (name : jsstring) :
    option Attribute :=
  match JSMap.get (_cache c) element with
  | Some elemCache => JSMap.get elemCache name
  | None => None
  end.

Definition set (c : AttributeCache) (element : Element) (name : jsstring)
    (attr : Attribute) : AttributeCache :=
  match JSMap.get (_cache c) element with
  | Some elemCache =>
      mkAttributeCache
        (JSMap.set (_cache c) element (JSMap.set elemCache name attr))
  | None =>
      let cache :=
        if bool_decide (_maxCacheSize ≤ JSMap.size (_cache c))
        then JSMap.delete_first (_cache c)
        else _cache c in
      let elemCache := [] in
      let cache := JSMap.set cache element elemCache in
      mkAttributeCache
        (JSMap.set cache element (JSMap.set elemCache name attr))
  end.

Definition invalidate (c : AttributeCache) (element : Element)
    (name : option jsstring) : AttributeCache :=
  match key_given name with
  | Some name =>
      match JSMap.get (_cache c) element with
      | Some elemCache =>
          mkAttributeCache
            (JSMap.set (_cache c) element (JSMap.delete elemCache name))
      | None => c
      end
  | None => mkAttributeCache (JSMap.delete (_cache c) element)
  end.

Definition clear_attributes (c : AttributeCache) : AttributeCache :=
  mkAttributeCache [].

End AttributeCache.
Arguments AttributeCache Element Attribute : clear implicits.

End Cache.

(** ** Text nodes and their pool *)
Module TextNode.
Import Pool.

(** The fields of a text node that [TextImpl] reads or writes; the links
    are references to other nodes, [None] for [null]. *)
Record TextImpl : Type := mkTextImpl {
  _data : jsstring;
  _name : jsstring;
  _assignedSlot : option Ref;
  _parent : option Ref;
  _firstChild : option Ref;
  _lastChild : option Ref;
  _previousSibling : option Ref;
  _nextSibling : option Ref;
  _nodeDocument : option Ref
}.

#[export] Instance TextImpl_reset : PoolableNode TextImpl := λ this,
  mkTextImpl empty empty None None None None None None (_nodeDocument this).

Section TextPool.
(** What [new TextImpl()] builds: the constructors above [TextImpl] are
    not among the sources, so the new object is left open. *)
Variable new_TextImpl : TextImpl.

(** [() => new TextImpl()]: a new object, at a new place of the store. *)
Definition factory (heap : list TextImpl) : Ref * list TextImpl :=
  (length heap, heap ++ [new_TextImpl]).

(** [createNodePool(() => new TextImpl(), 1000)] *)
Definition textNodePool : ObjectPool TextImpl :=
  createNodePool factory (Some 1000).

(** [TextImpl._create(document, data)], on the pool as it stands. *)
Definition _create (pool : ObjectPool TextImpl) (heap : list TextImpl)
    (document : Ref) (data : jsstring) :
    Ref * ObjectPool TextImpl * list TextImpl :=
  let '(node, pool, heap) := acquire pool heap in
  let heap := alter (λ this,
    mkTextImpl data (_name this) (_assignedSlot this) (_parent this)
      (_firstChild this) (_lastChild this) (_previousSibling this)
      (_nextSibling this) (_nodeDocument this)) node heap in
  let heap := alter (λ this,
    mkTextImpl (_data this) (_name this) (_assignedSlot this) (_parent this)
      (_firstChild this) (_lastChild this) (_previousSibling this)
      (_nextSibling this) (Some document)) node heap in
  (node, pool, heap).

End TextPool.
End TextNode.

(** * Properties *)

#[global] Arguments lit : simpl never.
#[global] Arguments chr : simpl never.
#[global] Arguments is_chr : simpl never.
#[global] Arguments includes : simpl never.
#[global] Arguments attribute_step : simpl never.

(** Both sides are the same concatenation, up to the grouping. *)
Ltac reassoc := repeat first [rewrite <- app_assoc | progress simpl].

(** ** Strings *)

Lemma is_chr_true c a : is_chr c a = true ↔ c = chr a.
Proof. unfold is_chr. apply N.eqb_eq. Qed.

Lemma startsWith_prefix s pat : startsWith s pat = true ↔ pat `prefix_of` s.
Proof.
  revert s. induction pat as [|p pat IH]; intros s; simpl.
  - split; [intros _; apply prefix_nil | reflexivity].
  - destruct s as [|c s].
    { split; [done | intros Hp; by apply prefix_nil_not in Hp]. }
    rewrite andb_true_iff, N.eqb_eq, IH. split.
    + intros [-> Hp]. by apply prefix_cons.
    + intros Hp. split; [by apply prefix_cons_inv_1 in Hp | by apply prefix_cons_inv_2 in Hp].
Qed.

Lemma prefix_occurs pat s : pat `prefix_of` s → occurs_in pat s.
Proof. intros [k ->]. by exists [], k. Qed.

Lemma occurs_cons pat c s : occurs_in pat s → occurs_in pat (c :: s).
Proof. intros (b & a & ->). by exists (c :: b), a. Qed.

Lemma occurs_cons_inv pat c s :
  occurs_in pat (c :: s) → pat `prefix_of` (c :: s) ∨ occurs_in pat s.
Proof.
  intros (b & a & Heq). destruct b as [|c' b]; simpl in Heq.
  - left. by exists a.
  - right. injection Heq as -> ->. by exists b, a.
Qed.

Lemma indexOf_from_lower s pat k :
  indexOf_from s pat k = (-1)%Z ∨ (k ≤ indexOf_from s pat k)%Z.
Proof.
  revert k. induction s as [|c s IH]; intros k; simpl.
  - destruct (startsWith [] pat); [right; lia | by left].
  - destruct (startsWith (c :: s) pat); [right; lia |].
    destruct (IH (k + 1)%Z) as [->| ?]; [by left | right; lia].
Qed.

Lemma indexOf_from_occurs s pat k :
  (0 ≤ k)%Z → indexOf_from s pat k ≠ (-1)%Z ↔ occurs_in pat s.
Proof.
  revert k. induction s as [|c s IH]; intros k Hk; simpl.
  - destruct (startsWith [] pat) eqn:Hs.
    + split; [intros _ | lia]. by apply prefix_occurs, startsWith_prefix.
    + split; [done |]. intros (b & a & Heq).
      symmetry in Heq. apply app_eq_nil in Heq as [_ [-> _]%app_eq_nil].
      by destruct b.
  - destruct (startsWith (c :: s) pat) eqn:Hs.
    + split; [intros _ | lia]. by apply prefix_occurs, startsWith_prefix.
    + rewrite IH by lia. split; [apply occurs_cons |].
      intros [Hp%startsWith_prefix | ?]%occurs_cons_inv; [congruence | done].
Qed.

Lemma includes_occurs s pat : includes s pat = true ↔ occurs_in pat s.
Proof.
  unfold includes, indexOf. rewrite bool_decide_eq_true.
  by apply indexOf_from_occurs.
Qed.

Lemma includes_false s pat : includes s pat = false ↔ ¬ occurs_in pat s.
Proof. rewrite <- includes_occurs. by destruct (includes s pat). Qed.

Lemma occurs_singleton c s : occurs_in [c] s ↔ c ∈ s.
Proof.
  split.
  - intros (b & a & ->). set_solver.
  - intros (b & a & ->)%list_elem_of_split. by exists b, a.
Qed.

Lemma endsWith_suffix s pat : endsWith s pat = true ↔ pat `suffix_of` s.
Proof.
  unfold endsWith. rewrite startsWith_prefix. split.
  - intros Hp%prefix_suffix_reverse. by rewrite !reverse_involutive in Hp.
  - apply suffix_prefix_reverse.
Qed.

(** ** Loops *)

Lemma fold_left_append (g : jsstring → N → jsstring) (f : N → jsstring) :
  (∀ acc c, g acc c = acc ++ f c) →
  ∀ s init, fold_left g s init = init ++ (s ≫= f).
Proof.
  intros Hg s. induction s as [|c s IH]; intros init; simpl.
  - by rewrite app_nil_r.
  - by rewrite Hg, IH, app_assoc.
Qed.

Lemma for_each_child_ok {E} (f : Node → result E jsstring) cs ss init :
  Forall2 (λ c s, f c = Ok s) cs ss →
  for_each_child f cs init = Ok (init ++ concat ss).
Proof.
  intros HF. revert init. induction HF as [|c s cs ss Hc _ IH]; intros init; simpl.
  - by rewrite app_nil_r.
  - rewrite Hc. simpl. by rewrite IH, app_assoc.
Qed.

Lemma for_each_child_inv {E} (f : Node → result E jsstring) cs init out :
  for_each_child f cs init = Ok out →
  ∃ ss, Forall2 (λ c s, f c = Ok s) cs ss ∧ out = init ++ concat ss.
Proof.
  revert init. induction cs as [|c cs IH]; intros init; simpl.
  - intros [= <-]. exists []. by rewrite app_nil_r.
  - destruct (f c) as [s|e] eqn:Hc; simpl; [|done].
    intros (ss & HF & ->)%IH. exists (s :: ss). split; [by constructor |].
    simpl. by rewrite app_assoc.
Qed.

Lemma for_each_child_throw {E} (f : Node → result E jsstring) cs init :
  Exists (λ c, ∃ e, f c = Throw e) cs →
  ∃ e, for_each_child f cs init = Throw e.
Proof.
  intros HE. revert init. induction HE as [c cs [e Hc]|c cs _ IH]; intros init; simpl.
  - rewrite Hc. by exists e.
  - destruct (f c) as [s|e]; simpl; [apply IH | by exists e].
Qed.

Lemma for_range_rounds `{XMLAlgorithm} rwf (seen todo : list Attr) st :
  for_range (λ i '(result, localNameSet),
      match (seen ++ todo) !! i with
      | None => Ok (result, localNameSet)
      | Some attr => attribute_step rwf attr (result, localNameSet)
      end) (length seen) (length todo) st
  = attribute_rounds rwf todo st.
Proof.
  revert seen st. induction todo as [|a todo IH]; intros seen [r o]; simpl; [done|].
  rewrite list_lookup_middle by done.
  destruct (attribute_step rwf a (r, o)) as [st'|e]; simpl; [|done].
  specialize (IH (seen ++ [a]) st'). rewrite <- app_assoc, length_app in IH.
  simpl in IH. by rewrite Nat.add_1_r in IH.
Qed.

Lemma _serializeAttributes_rounds `{XMLAlgorithm} attrs rwf :
  _serializeAttributes attrs rwf
  = st ← attribute_rounds rwf attrs
         (empty, if rwf then Some ∅ else None);
    Ok (fst st).
Proof.
  unfold _serializeAttributes.
  by rewrite <- (for_range_rounds rwf [] attrs).
Qed.

(** ** Induction over a tree, with the property at hand for every child *)

Lemma Node_children_ind (P : Node → Prop) :
  (∀ ln attrs cs, Forall P cs → P (Element ln attrs cs)) →
  (∀ de cs, Forall P cs → P (Document de cs)) →
  (∀ data, P (Comment data)) →
  (∀ data, P (Text data)) →
  (∀ cs, Forall P cs → P (DocumentFragment cs)) →
  (∀ name publicId systemId, P (DocumentType name publicId systemId)) →
  (∀ target data, P (ProcessingInstruction target data)) →
  (∀ data, P (CData data)) →
  (∀ k, P (Unsupported k)) →
  ∀ node, P node.
Proof.
  intros HE HD HC HT HF HDT HPI HCD HU.
  fix IH 1. intros [ln attrs cs|de cs|data|data|cs|name p s|target data|data|k];
    [apply HE|apply HD|apply HC|apply HT|apply HF|apply HDT|apply HPI|apply HCD|apply HU].
  all: induction cs as [|c cs IHcs]; constructor; [apply IH | apply IHcs].
Qed.

Lemma first_unsupported_Element ln attrs cs :
  first_unsupported (Element ln attrs cs) = first_unsupported_among cs.
Proof. simpl. induction cs as [|c cs IH]; simpl; [done | by rewrite IH]. Qed.

Lemma first_unsupported_Document de cs :
  first_unsupported (Document de cs) = first_unsupported_among cs.
Proof. simpl. induction cs as [|c cs IH]; simpl; [done | by rewrite IH]. Qed.

Lemma first_unsupported_DocumentFragment cs :
  first_unsupported (DocumentFragment cs) = first_unsupported_among cs.
Proof. simpl. induction cs as [|c cs IH]; simpl; [done | by rewrite IH]. Qed.

Lemma first_unsupported_among_None cs :
  first_unsupported_among cs = None ↔ Forall supported cs.
Proof.
  unfold supported. induction cs as [|c cs IH]; simpl.
  - split; [by constructor | done].
  - rewrite Forall_cons, <- IH.
    destruct (first_unsupported c); [split; [done | by intros [? _]] | tauto].
Qed.

(** ** Escaping *)

Section Escaping.
Context `{XMLAlgorithm}.

Lemma _serializeText_escape data rwf :
  _serializeText data rwf
  = if rwf && negb (xml_isLegalChar data) then Throw InvalidTextData
    else Ok (escape_text data).
Proof.
  unfold _serializeText, escape_text.
  destruct (rwf && negb (xml_isLegalChar data)); [done|]. f_equal.
  rewrite fold_left_append with (f := text_entity); [done|].
  intros acc c. unfold text_entity. by repeat case_match.
Qed.

Lemma _serializeAttributeValue_escape v rwf :
  _serializeAttributeValue (Some v) rwf
  = if rwf && negb (xml_isLegalChar v) then Throw InvalidAttributeValue
    else Ok (escape_attribute v).
Proof.
  unfold _serializeAttributeValue, escape_attribute.
  destruct (rwf && negb (xml_isLegalChar v)); [done|]. f_equal.
  rewrite fold_left_append with (f := attribute_entity); [done|].
  intros acc c. unfold attribute_entity.
  destruct (N.eqb c QUOT) eqn:Hq; [|by repeat case_match].
  apply N.eqb_eq in Hq as ->. done.
Qed.

Lemma _serializeAttributeValue_unchecked v :
  _serializeAttributeValue v false = Ok (escape_attribute (default empty v)).
Proof.
  destruct v as [v|]; [|done]. by rewrite _serializeAttributeValue_escape.
Qed.

Lemma attribute_rounds_unchecked attrs r :
  attribute_rounds false attrs (r, None)
  = Ok (r ++ concat (attribute_markup <$> attrs), None).
Proof.
  revert r. induction attrs as [|a attrs IH]; intros r; simpl.
  - by rewrite app_nil_r.
  - unfold attribute_step. simpl.
    rewrite _serializeAttributeValue_unchecked. simpl.
    rewrite IH. unfold attribute_markup. by reassoc.
Qed.

Lemma _serializeAttributes_unchecked attrs :
  _serializeAttributes attrs false = Ok (concat (attribute_markup <$> attrs)).
Proof.
  rewrite _serializeAttributes_rounds. by rewrite attribute_rounds_unchecked.
Qed.

End Escaping.

(** ** Serialization without the conformance checks *)

Section Unchecked.
Context `{XMLAlgorithm}.

Lemma for_each_child_unchecked (f : Node → result Error jsstring) cs init :
  Forall (λ c, f c = match first_unsupported c with
                     | None => Ok (markup c)
                     | Some k => Throw (UnknownNodeType k)
                     end) cs →
  for_each_child f cs init
  = match first_unsupported_among cs with
    | None => Ok (init ++ concat (markup <$> cs))
    | Some k => Throw (UnknownNodeType k)
    end.
Proof.
  intros HF. revert init. induction HF as [|c cs Hc _ IH]; intros init; simpl.
  - by rewrite app_nil_r.
  - rewrite Hc. destruct (first_unsupported c); simpl; [done|].
    rewrite IH. destruct (first_unsupported_among cs); [done|].
    by rewrite app_assoc.
Qed.

Lemma _serializeDocumentType_unchecked name publicId systemId :
  _serializeDocumentType name publicId systemId false
  = Ok (doctype_markup name publicId systemId).
Proof. by destruct publicId, systemId. Qed.

(** With the flag unset the serializer is plain concatenation; the one
    failure left is that of a node of an unknown category. *)
Lemma _serializeNode_unchecked node :
  _serializeNode node false
  = match first_unsupported node with
    | None => Ok (markup node)
    | Some k => Throw (UnknownNodeType k)
    end.
Proof.
  induction node as [ln attrs cs IH|de cs IH|data|data|cs IH|name p s|target data|data|k]
    using Node_children_ind.
  - rewrite first_unsupported_Element.
    cbn [_serializeNode]. unfold _serializeElement. cbn [andb].
    rewrite _serializeAttributes_unchecked. cbn [mbind result_bind].
    destruct cs as [|c cs]; [by reassoc|].
    rewrite bool_decide_eq_false_2 by done.
    rewrite (for_each_child_unchecked _ _ _ IH).
    destruct (first_unsupported_among (c :: cs)); [done|].
    cbn [mbind result_bind markup]. f_equal. by reassoc.
  - rewrite first_unsupported_Document.
    cbn [_serializeNode]. unfold _serializeDocument. cbn [andb].
    by rewrite (for_each_child_unchecked _ _ _ IH).
  - done.
  - cbn [_serializeNode]. by rewrite _serializeText_escape.
  - rewrite first_unsupported_DocumentFragment.
    cbn [_serializeNode]. unfold _serializeDocumentFragment.
    by rewrite (for_each_child_unchecked _ _ _ IH).
  - apply _serializeDocumentType_unchecked.
  - done.
  - done.
  - done.
Qed.

Lemma _serializeNode_supported node :
  supported node → _serializeNode node false = Ok (markup node).
Proof. intros Hs. by rewrite _serializeNode_unchecked, Hs. Qed.

(** No conformance check fires when the flag is unset. *)
Lemma unchecked_failure node e :
  _serializeNode node false = Throw e → ∃ k, e = UnknownNodeType k.
Proof.
  rewrite _serializeNode_unchecked.
  destruct (first_unsupported node) as [k|]; [|done].
  intros [= <-]. by exists k.
Qed.

End Unchecked.

(** ** The attribute loop with the conformance checks *)

Section Attributes.
Context `{XMLAlgorithm}.

Lemma attribute_rounds_app rwf l1 l2 st :
  attribute_rounds rwf (l1 ++ l2) st
  = st' ← attribute_rounds rwf l1 st; attribute_rounds rwf l2 st'.
Proof.
  revert st. induction l1 as [|a l1 IH]; intros st; simpl; [done|].
  destruct (attribute_step rwf a st); simpl; [apply IH | done].
Qed.

(** A round with the checks succeeds only past all four of them. *)
Lemma attribute_step_checked a r m st :
  attribute_step true a (r, Some m) = Ok st →
  js_in (localName a) m = false
  ∧ ¬ occurs_in (lit ":") (localName a)
  ∧ xml_isName (localName a) = true
  ∧ (∀ v, value a = Some v → xml_isLegalChar v = true)
  ∧ st = (r ++ attribute_markup a, Some (<[localName a := true]> m)).
Proof.
  unfold attribute_step. cbn [andb fmap option_fmap option_map].
  destruct (js_in (localName a) m); [done|].
  destruct (includes (localName a) (lit ":")) eqn:Hc; [done|].
  destruct (xml_isName (localName a)); [|done]. cbn [orb negb].
  apply includes_false in Hc.
  destruct (value a) as [v|] eqn:Hv.
  - rewrite _serializeAttributeValue_escape. cbn [andb].
    destruct (xml_isLegalChar v) eqn:Hl; [|done]. cbn [negb mbind result_bind].
    intros [= <-]. repeat split; try done.
    + by intros ? [= <-].
    + unfold attribute_markup. by rewrite Hv.
  - intros [= <-]. repeat split; try done.
    unfold attribute_markup. by rewrite Hv.
Qed.

Lemma attribute_rounds_checked attrs r m st :
  attribute_rounds true attrs (r, Some m) = Ok st →
  NoDup (localName <$> attrs)
  ∧ Forall (λ a, js_in (localName a) m = false
                 ∧ ¬ occurs_in (lit ":") (localName a)
                 ∧ xml_isName (localName a) = true
                 ∧ ∀ v, value a = Some v → xml_isLegalChar v = true) attrs
  ∧ ∃ m', st = (r ++ concat (attribute_markup <$> attrs), Some m')
          ∧ ∀ k, is_Some (m' !! k)
                 ↔ is_Some (m !! k) ∨ k ∈ localName <$> attrs.
Proof.
  revert r m. induction attrs as [|a attrs IH]; intros r m; simpl.
  - intros [= <-]. split; [constructor|]. split; [constructor|].
    exists m. rewrite app_nil_r. split; [done|].
    intros k. rewrite elem_of_nil. tauto.
  - destruct (attribute_step true a (r, Some m)) as [st'|e] eqn:Hstep; [|done].
    apply attribute_step_checked in Hstep as (Hin & Hc & Hn & Hv & ->).
    cbn [mbind result_bind].
    intros (Hnd & HF & m' & -> & Hkeys)%IH.
    assert (Hfresh : localName a ∉ localName <$> attrs).
    { intros (b & Hab & Hb)%list_elem_of_fmap.
      rewrite Forall_forall in HF. destruct (HF b Hb) as [Hjs _].
      unfold js_in in Hjs. apply orb_false_iff in Hjs as [Hjs _].
      apply bool_decide_eq_false in Hjs. apply Hjs.
      rewrite <- Hab. by rewrite lookup_insert_eq. }
    split; [by constructor|]. split.
    + constructor; [done|].
      eapply Forall_impl; [exact HF|]. intros b (Hjs & ?). split; [|done].
      unfold js_in in *. apply orb_false_iff in Hjs as [Hjs Hp].
      rewrite Hp, orb_false_r. apply bool_decide_eq_false in Hjs.
      apply bool_decide_eq_false. intros [x Hx]. apply Hjs.
      destruct (decide (localName a = localName b)) as [->|Hne].
      * by rewrite lookup_insert_eq.
      * rewrite lookup_insert_ne by done. by exists x.
    + exists m'. split; [by rewrite <- app_assoc|].
      intros k. rewrite Hkeys, elem_of_cons.
      destruct (decide (localName a = k)) as [->|Hne].
      * rewrite lookup_insert_eq. split; intros _; [by right; left | by left].
      * rewrite lookup_insert_ne by done. intuition congruence.
Qed.

Lemma _serializeAttributeValue_failure v rwf e :
  _serializeAttributeValue v rwf = Throw e → e = InvalidAttributeValue.
Proof.
  unfold _serializeAttributeValue.
  destruct (rwf && _); [by intros [= <-]|]. by destruct v.
Qed.

(** A round fails with one of the three attribute failures. *)
Lemma attribute_rounds_failure rwf attrs st e :
  attribute_rounds rwf attrs st = Throw e →
  e = DuplicateAttributes ∨ e = InvalidAttributeLocalName
  ∨ e = InvalidAttributeValue.
Proof.
  revert st. induction attrs as [|a attrs IH]; intros st; simpl; [done|].
  destruct (attribute_step rwf a st) as [st'|e'] eqn:Hstep;
    cbn [mbind result_bind]; [apply IH|].
  intros [= <-]. revert Hstep. unfold attribute_step. destruct st as [r o].
  destruct (rwf && match o with Some _ => _ | None => _ end);
    [intros [= <-]; tauto|].
  destruct (rwf && (_ || _)); [intros [= <-]; tauto|].
  destruct (_serializeAttributeValue (value a) rwf) eqn:Hv; [done|].
  apply _serializeAttributeValue_failure in Hv as ->.
  intros [= <-]. tauto.
Qed.

Lemma _serializeAttributes_failure rwf attrs e :
  _serializeAttributes attrs rwf = Throw e → conformance_failure e.
Proof.
  rewrite _serializeAttributes_rounds.
  destruct (attribute_rounds _ _ _) as [st|e'] eqn:Hr; [done|].
  intros [= <-]. apply attribute_rounds_failure in Hr. intros k.
  destruct Hr as [->|[->| ->]]; done.
Qed.

Lemma _serializeAttributes_checked attrs out :
  _serializeAttributes attrs true = Ok out →
  NoDup (localName <$> attrs)
  ∧ Forall (λ a, ¬ occurs_in (lit ":") (localName a)
                 ∧ xml_isName (localName a) = true
                 ∧ ∀ v, value a = Some v → xml_isLegalChar v = true) attrs
  ∧ out = concat (attribute_markup <$> attrs).
Proof.
  rewrite _serializeAttributes_rounds.
  destruct (attribute_rounds _ _ _) as [st|e] eqn:Hr; [|done].
  intros [= <-].
  apply attribute_rounds_checked in Hr as (Hnd & HF & m' & -> & _).
  split; [done|]. split; [|done].
  eapply Forall_impl; [exact HF|]. intros a (_ & ? & ? & ?). auto.
Qed.

End Attributes.

(** ** Serialization with the conformance checks *)

Section Checked.
Context `{XMLAlgorithm}.

Lemma for_each_child_throw_inv {E} (f : Node → result E jsstring) cs init e :
  for_each_child f cs init = Throw e → ∃ c, c ∈ cs ∧ f c = Throw e.
Proof.
  revert init. induction cs as [|c cs IH]; intros init; simpl; [done|].
  destruct (f c) as [s|e'] eqn:Hc; cbn [mbind result_bind].
  - intros (c' & ? & ?)%IH. exists c'. by rewrite elem_of_cons; auto.
  - intros [= <-]. exists c. by rewrite elem_of_cons; auto.
Qed.

(** The element algorithm, with its flag and its accumulator folded away. *)
Lemma _serializeNode_Element ln attrs cs rwf :
  _serializeNode (Element ln attrs cs) rwf
  = if rwf && (includes ln (lit ":") || negb (xml_isName ln))
    then Throw InvalidElementLocalName
    else
      a ← _serializeAttributes attrs rwf;
      match cs with
      | [] => Ok (lit "<" ++ ln ++ a ++ lit "/>")
      | _ :: _ =>
          m ← for_each_child (λ c, _serializeNode c rwf) cs
                (lit "<" ++ ln ++ a ++ lit ">");
          Ok (m ++ lit "</" ++ ln ++ lit ">")
      end.
Proof.
  cbn [_serializeNode]. unfold _serializeElement.
  destruct (rwf && _); [done|].
  destruct (_serializeAttributes attrs rwf) as [a|e]; [|done].
  cbn [mbind result_bind].
  destruct cs as [|c cs]; [by reassoc|].
  rewrite bool_decide_eq_false_2 by done. by reassoc.
Qed.

Lemma _serializeNode_Document de cs rwf :
  _serializeNode (Document de cs) rwf
  = if rwf && match de with None => true | Some _ => false end
    then Throw MissingDocumentElement
    else for_each_child (λ c, _serializeNode c rwf) cs empty.
Proof. done. Qed.

Lemma child_throws (cs : list Node) c rwf :
  c ∈ cs → (∃ e, _serializeNode c rwf = Throw e) →
  Exists (λ c, ∃ e, _serializeNode c rwf = Throw e) cs.
Proof. intros Hc He. apply Exists_exists. by exists c. Qed.

(** Every violation of a constraint makes the checked serialization fail. *)
Lemma violation_fails node :
  Violation node → ∃ e, _serializeNode node true = Throw e.
Proof.
  induction 1 as
    [ln attrs cs Hc|ln attrs cs Hn|ln attrs cs i j a b Hij Hi Hj Hab
    |ln attrs cs a Ha Hc|ln attrs cs a Ha Hn|ln attrs cs a v Ha Hv Hl
    |data Hl|data Hl|data Hh|data Hs
    |target data Hc|target data Hx|target data Hl|target data He
    |data He|name p s Hp|name p s Hl|name p s Hq Ha
    |cs|ln attrs cs c Hc _ IH|de cs c Hc _ IH|cs c Hc _ IH].
  1-6, 20: rewrite _serializeNode_Element; cbn [andb].
  1-7: destruct (includes ln (lit ":") || negb (xml_isName ln)) eqn:Hname;
         [by eexists|].
  1-2: apply orb_false_iff in Hname as [Hname1 Hname2].
  1: by apply includes_false in Hname1.
  1: by rewrite Hn in Hname2.
  1-5: destruct (_serializeAttributes attrs true) as [out|e] eqn:Hattrs;
         [|by eexists].
  1-4: apply _serializeAttributes_checked in Hattrs as (Hnd & HF & _);
       rewrite Forall_forall in HF.
  - exfalso. assert (i = j); [|lia].
    eapply NoDup_lookup; [exact Hnd| |];
      rewrite list_lookup_fmap; [by rewrite Hi | by rewrite Hj, Hab].
  - by destruct (HF a Ha) as (? & _).
  - destruct (HF a Ha) as (_ & ? & _). congruence.
  - destruct (HF a Ha) as (_ & _ & Hv'). specialize (Hv' v Hv). congruence.
  - cbn [mbind result_bind]. destruct cs as [|c' cs']; [by apply elem_of_nil in Hc|].
    edestruct (for_each_child_throw (λ c, _serializeNode c true) (c' :: cs'))
      as [e He]; [by eapply child_throws|].
    rewrite He. by eexists.
  - cbn [_serializeNode]. unfold _serializeText. rewrite Hl. by eexists.
  - cbn [_serializeNode]. unfold _serializeComment. rewrite Hl. by eexists.
  - cbn [_serializeNode]. unfold _serializeComment.
    apply includes_occurs in Hh. rewrite Hh, orb_true_r. by eexists.
  - cbn [_serializeNode]. unfold _serializeComment.
    apply endsWith_suffix in Hs. rewrite Hs, orb_true_r. by eexists.
  - cbn [_serializeNode]. unfold _serializeProcessingInstruction.
    apply includes_occurs in Hc. rewrite Hc. by eexists.
  - cbn [_serializeNode]. unfold _serializeProcessingInstruction.
    rewrite Hx, orb_true_r. by eexists.
  - cbn [_serializeNode]. unfold _serializeProcessingInstruction.
    rewrite Hl. cbn [andb negb orb]. destruct (_ || _); by eexists.
  - cbn [_serializeNode]. unfold _serializeProcessingInstruction.
    apply includes_occurs in He. rewrite He, orb_true_r. cbn [andb].
    destruct (_ || _); by eexists.
  - cbn [_serializeNode]. unfold _serializeCData.
    apply includes_occurs in He. rewrite He. by eexists.
  - cbn [_serializeNode]. unfold _serializeDocumentType. rewrite Hp. by eexists.
  - cbn [_serializeNode]. unfold _serializeDocumentType. rewrite Hl.
    cbn [andb negb orb]. destruct (negb _); by eexists.
  - cbn [_serializeNode]. unfold _serializeDocumentType.
    apply occurs_singleton, includes_occurs in Hq, Ha. rewrite Hq, Ha.
    rewrite orb_true_r. cbn [andb]. destruct (negb _); by eexists.
  - by eexists.
  - rewrite _serializeNode_Document. destruct (true && _); [by eexists|].
    by eapply for_each_child_throw, child_throws.
  - cbn [_serializeNode]. unfold _serializeDocumentFragment.
    by eapply for_each_child_throw, child_throws.
Qed.

(** In a tree of supported nodes every failure is that of a check. *)
Lemma supported_failure node rwf e :
  supported node → _serializeNode node rwf = Throw e → conformance_failure e.
Proof.
  revert e.
  induction node as [ln attrs cs IH|de cs IH|data|data|cs IH|name p s|target data|data|k]
    using Node_children_ind; intros e Hs.
  - rewrite _serializeNode_Element. unfold supported in Hs.
    rewrite first_unsupported_Element, first_unsupported_among_None in Hs.
    destruct (rwf && _); [by intros [= <-] k|].
    destruct (_serializeAttributes attrs rwf) as [a|e'] eqn:Ha;
      cbn [mbind result_bind];
      [|intros [= <-]; by eapply _serializeAttributes_failure].
    destruct cs as [|c cs]; [done|].
    destruct (for_each_child _ _ _) as [m|e'] eqn:Hm; [done|].
    cbn [mbind result_bind]. intros [= <-].
    apply for_each_child_throw_inv in Hm as (c' & Hc' & Hthrow).
    rewrite Forall_forall in IH, Hs.
    eapply IH; [exact Hc' | by apply Hs | exact Hthrow].
  - rewrite _serializeNode_Document. unfold supported in Hs.
    rewrite first_unsupported_Document, first_unsupported_among_None in Hs.
    destruct (rwf && _); [by intros [= <-] k|].
    intros (c' & Hc' & Hthrow)%for_each_child_throw_inv.
    rewrite Forall_forall in IH, Hs.
    eapply IH; [exact Hc' | by apply Hs | exact Hthrow].
  - cbn [_serializeNode]. unfold _serializeComment.
    destruct (rwf && _); [by intros [= <-] k | done].
  - cbn [_serializeNode]. unfold _serializeText.
    destruct (rwf && _); [by intros [= <-] k | done].
  - cbn [_serializeNode]. unfold _serializeDocumentFragment, supported in *.
    rewrite first_unsupported_DocumentFragment, first_unsupported_among_None in Hs.
    intros (c' & Hc' & Hthrow)%for_each_child_throw_inv.
    rewrite Forall_forall in IH, Hs.
    eapply IH; [exact Hc' | by apply Hs | exact Hthrow].
  - cbn [_serializeNode]. unfold _serializeDocumentType.
    destruct (rwf && negb (xml_isPubidChar p)); [by intros [= <-] k|].
    destruct (rwf && _); [by intros [= <-] k | done].
  - cbn [_serializeNode]. unfold _serializeProcessingInstruction.
    destruct (rwf && (includes target _ || _)); [by intros [= <-] k|].
    destruct (rwf && _); [by intros [= <-] k | done].
  - cbn [_serializeNode]. unfold _serializeCData.
    destruct (rwf && _); [by intros [= <-] k | done].
  - done.
Qed.

End Checked.

(** ** The properties of the specification *)

Section Specification.
Context `{XMLAlgorithm}.

Lemma text_entity_other c :
  text_entity c = [c] ∨ c ∈ [chr "&"; chr "<"; chr ">"].
Proof.
  unfold text_entity.
  destruct (is_chr c "&") eqn:H1; [apply is_chr_true in H1; set_solver|].
  destruct (is_chr c "<") eqn:H2; [apply is_chr_true in H2; set_solver|].
  destruct (is_chr c ">") eqn:H3; [apply is_chr_true in H3; set_solver|].
  by left.
Qed.

Lemma attribute_entity_other c :
  attribute_entity c = [c] ∨ c ∈ [chr "&"; QUOT; chr "<"; chr ">"].
Proof.
  unfold attribute_entity.
  destruct (is_chr c "&") eqn:H1; [apply is_chr_true in H1; set_solver|].
  destruct (N.eqb c QUOT) eqn:H2; [apply N.eqb_eq in H2; set_solver|].
  destruct (is_chr c "<") eqn:H3; [apply is_chr_true in H3; set_solver|].
  destruct (is_chr c ">") eqn:H4; [apply is_chr_true in H4; set_solver|].
  by left.
Qed.

(** C1. A text node serializes to its data with every [&], [<] and [>]
    replaced by its entity, once and in one pass, and every other
    character (the two quotes among them) as it is: the output of
    [before ++ c :: after] is the output of [before], what stands for
    [c], and the output of [after].  So ["a&b"] gives ["a&amp;b"], and
    that output, serialized as new text, gives ["a&amp;amp;b"].  With the
    flag set, data that fails the legal-character test makes the
    serialization fail instead. *)
Theorem text_escaped_once_in_one_pass data :
  _serializeNode (Text data) false = Ok (escape_text data)
  ∧ _serializeNode (Text data) true
    = (if xml_isLegalChar data then Ok (escape_text data)
       else Throw InvalidTextData)
  ∧ (∀ before c after,
       escape_text (before ++ c :: after)
       = escape_text before ++ text_entity c ++ escape_text after)
  ∧ text_entity (chr "&") = lit "&amp;"
  ∧ text_entity (chr "<") = lit "&lt;"
  ∧ text_entity (chr ">") = lit "&gt;"
  ∧ (∀ c, text_entity c = [c] ∨ c ∈ [chr "&"; chr "<"; chr ">"])
  ∧ text_entity QUOT = [QUOT] ∧ text_entity APOS = [APOS]
  ∧ _serializeNode (Text (lit "a&b")) false = Ok (lit "a&amp;b")
  ∧ _serializeNode (Text (lit "a&amp;b")) false = Ok (lit "a&amp;amp;b").
Proof.
  cbn [_serializeNode]. rewrite !_serializeText_escape. cbn [andb].
  split; [done|]. split; [by destruct (xml_isLegalChar data)|].
  split; [|repeat split; try done; apply text_entity_other].
  intros before c after. unfold escape_text.
  by rewrite bind_app, bind_cons.
Qed.

(** C2. An attribute value serializes with [&], the double quote, [<]
    and [>] replaced by their entities and every other character as it
    is; a null value gives the empty string, whatever the flag; with the
    flag set, a value that fails the legal-character test makes the
    serialization fail, and nothing is produced. *)
Theorem attribute_value_escaped v :
  _serializeAttributeValue (Some v) false = Ok (escape_attribute v)
  ∧ _serializeAttributeValue (Some v) true
    = (if xml_isLegalChar v then Ok (escape_attribute v)
       else Throw InvalidAttributeValue)
  ∧ (∀ rwf, _serializeAttributeValue None rwf = Ok empty)
  ∧ (∀ before c after,
       escape_attribute (before ++ c :: after)
       = escape_attribute before ++ attribute_entity c
         ++ escape_attribute after)
  ∧ attribute_entity (chr "&") = lit "&amp;"
  ∧ attribute_entity QUOT = lit "&quot;"
  ∧ attribute_entity (chr "<") = lit "&lt;"
  ∧ attribute_entity (chr ">") = lit "&gt;"
  ∧ (∀ c, attribute_entity c = [c] ∨ c ∈ [chr "&"; QUOT; chr "<"; chr ">"]).
Proof.
  rewrite !_serializeAttributeValue_escape. cbn [andb].
  split; [done|]. split; [by destruct (xml_isLegalChar v)|].
  split; [by intros []|].
  split; [|repeat split; try done; apply attribute_entity_other].
  intros before c after. unfold escape_attribute.
  by rewrite bind_app, bind_cons.
Qed.

(** C3. Whatever the flag, an element is serialized to [out] exactly when
    its name passes the check of the flag, its attributes serialize to
    some [a], and: with no child, [out] is ["<" name a "/>"], with no end
    tag; with children, each child serializes to a string and [out] is
    ["<" name a ">"], those strings in tree order, ["</" name ">"]. *)
Theorem element_markup_shape ln attrs cs rwf out :
  _serializeNode (Element ln attrs cs) rwf = Ok out
  ↔ rwf && (includes ln (lit ":") || negb (xml_isName ln)) = false
    ∧ ∃ a, _serializeAttributes attrs rwf = Ok a
      ∧ match cs with
        | [] => out = lit "<" ++ ln ++ a ++ lit "/>"
        | _ :: _ =>
            ∃ ss, Forall2 (λ c s, _serializeNode c rwf = Ok s) cs ss
              ∧ out = lit "<" ++ ln ++ a ++ lit ">" ++ concat ss
                      ++ lit "</" ++ ln ++ lit ">"
        end.
Proof.
  rewrite _serializeNode_Element.
  destruct (rwf && _); [split; [done | by intros [? _]]|].
  destruct (_serializeAttributes attrs rwf) as [a|e]; cbn [mbind result_bind].
  2: { split; [done | by intros (_ & a & ? & _)]. }
  destruct cs as [|c cs].
  - split.
    + intros [= <-]. split; [done|]. by exists a.
    + intros (_ & a' & [= <-] & ->). done.
  - split.
    + destruct (for_each_child _ _ _) as [m|e] eqn:Hm; [|done].
      intros [= <-]. split; [done|]. exists a. split; [done|].
      apply for_each_child_inv in Hm as (ss & HF & ->).
      exists ss. split; [done|]. by reassoc.
    + intros (_ & a' & [= <-] & ss & HF & ->).
      rewrite (for_each_child_ok _ _ ss) by done.
      cbn [mbind result_bind]. f_equal. by reassoc.
Qed.

(** C4. Take a tree of nodes of the eight categories that violates a
    well-formedness constraint.  With the flag unset its serialization
    succeeds, and is the plain concatenation [markup]: the data as it is,
    but for the entity replacements.  With the flag set it fails, and the
    failure is that of a conformance check. *)
Theorem wellformedness_gating node :
  Violation node → supported node →
  _serializeNode node false = Ok (markup node)
  ∧ ∃ e, _serializeNode node true = Throw e ∧ conformance_failure e.
Proof.
  intros Hv Hs. split; [by apply _serializeNode_supported|].
  destruct (violation_fails node Hv) as [e He].
  exists e. split; [done|]. by eapply supported_failure.
Qed.

(** C5. [serializeToString] returns the string of the internal algorithm
    run with the flag unset; every failure of the internal algorithm
    becomes the one [InvalidStateError], and that is what a tree with a
    node of an unknown category gives. *)
Theorem serializeToString_invalid_state root :
  serializeToString root
  = match _serializeNode root false with
    | Ok s => Ok s
    | Throw _ => Throw InvalidStateError
    end
  ∧ serializeToString root
    = match first_unsupported root with
      | None => Ok (markup root)
      | Some _ => Throw InvalidStateError
      end
  ∧ ∀ rwf, _xmlSerialization root rwf
           = match _serializeNode root rwf with
             | Ok s => Ok s
             | Throw _ => Throw InvalidStateError
             end.
Proof.
  unfold serializeToString, _xmlSerialization. split; [done|]. split; [|done].
  rewrite _serializeNode_unchecked. by destruct (first_unsupported root).
Qed.

(** C6. Two attributes of an element with the same local name, whatever
    their values (the check knows of no namespace): with the flag set the
    serialization of the attributes, and so of the element, fails; the
    attributes are checked in the order of the list, so when those before
    the second of the two pass, the failure is that of the duplicate,
    raised on reaching that second attribute; with the flag unset the
    attributes are serialized without a failure. *)
Theorem duplicate_attribute_rejected ln attrs cs i j a b :
  i < j → attrs !! i = Some a → attrs !! j = Some b →
  localName a = localName b →
  (∃ e, _serializeAttributes attrs true = Throw e)
  ∧ (∃ e, _serializeNode (Element ln attrs cs) true = Throw e)
  ∧ (∀ r, _serializeAttributes (take j attrs) true = Ok r →
          _serializeAttributes attrs true = Throw DuplicateAttributes)
  ∧ _serializeAttributes attrs false
    = Ok (concat (attribute_markup <$> attrs)).
Proof.
  intros Hij Hi Hj Hab.
  split; [|split; [|split]].
  - destruct (_serializeAttributes attrs true) as [out|e] eqn:Hattrs;
      [|by exists e].
    apply _serializeAttributes_checked in Hattrs as (Hnd & _).
    assert (i = j); [|lia].
    eapply NoDup_lookup; [exact Hnd| |];
      rewrite list_lookup_fmap; [by rewrite Hi | by rewrite Hj, Hab].
  - apply violation_fails. by eapply V_attribute_duplicate.
  - intros r. rewrite !_serializeAttributes_rounds.
    rewrite <- (take_drop_middle attrs j b Hj) at 2.
    rewrite attribute_rounds_app.
    destruct (attribute_rounds true (take j attrs) _) as [[r' o]|e] eqn:Hr;
      [|done].
    apply attribute_rounds_checked in Hr as (_ & _ & m' & [= -> ->] & Hkeys).
    intros _. cbn [mbind result_bind attribute_rounds].
    unfold attribute_step. cbn [andb]. unfold js_in.
    rewrite bool_decide_eq_true_2; [done|].
    apply Hkeys. right. rewrite <- Hab. apply list_elem_of_fmap_2.
    apply list_elem_of_lookup_2 with i. by rewrite lookup_take_lt.
  - apply _serializeAttributes_unchecked.
Qed.

(** C7. A document whose document element is null: with the flag set its
    serialization fails; with the flag unset, and its children nodes of
    the eight categories (comments, processing instructions, a doctype),
    every child serializes to a string and the document to those strings
    one after the other, in tree order, with nothing around them. *)
Theorem document_without_element cs :
  Forall supported cs →
  _serializeNode (Document None cs) true = Throw MissingDocumentElement
  ∧ ∃ ss, Forall2 (λ c s, _serializeNode c false = Ok s) cs ss
      ∧ _serializeNode (Document None cs) false = Ok (concat ss).
Proof.
  intros Hs. split; [done|]. exists (markup <$> cs). split.
  - apply Forall2_fmap_r, Forall_Forall2_diag.
    eapply Forall_impl; [exact Hs|]. apply _serializeNode_supported.
  - apply _serializeNode_supported. unfold supported.
    rewrite first_unsupported_Document. by apply first_unsupported_among_None.
Qed.

(** C8. A document type node that passes the checks of the flag
    serializes to one of four forms, by which of its public and system
    identifiers are empty: both there, [PUBLIC] with the two; the public
    one alone, [PUBLIC] with it and no system identifier at all; the
    system one alone, [SYSTEM] with it; none, the name alone. *)
Theorem doctype_forms name publicId systemId rwf :
  (rwf = true →
   xml_isPubidChar publicId = true ∧ xml_isLegalChar systemId = true
   ∧ ¬ (QUOT ∈ systemId ∧ APOS ∈ systemId)) →
  ∃ out,
    _serializeNode (DocumentType name publicId systemId) rwf = Ok out
    ∧ (publicId ≠ [] → systemId ≠ [] →
       out = lit "<!DOCTYPE " ++ name ++ lit " PUBLIC " ++ [QUOT] ++ publicId
             ++ [QUOT] ++ lit " " ++ [QUOT] ++ systemId ++ [QUOT] ++ lit ">")
    ∧ (publicId ≠ [] → systemId = [] →
       out = lit "<!DOCTYPE " ++ name ++ lit " PUBLIC " ++ [QUOT] ++ publicId
             ++ [QUOT] ++ lit ">")
    ∧ (publicId = [] → systemId ≠ [] →
       out = lit "<!DOCTYPE " ++ name ++ lit " SYSTEM " ++ [QUOT] ++ systemId
             ++ [QUOT] ++ lit ">")
    ∧ (publicId = [] → systemId = [] →
       out = lit "<!DOCTYPE " ++ name ++ lit ">").
Proof.
  intros Hchecks. exists (doctype_markup name publicId systemId). split.
  - destruct rwf; [|apply _serializeDocumentType_unchecked].
    destruct Hchecks as (Hp & Hl & Hq); [done|].
    cbn [_serializeNode]. unfold _serializeDocumentType.
    rewrite Hp, Hl. cbn [andb negb orb].
    destruct (includes systemId [QUOT] && includes systemId [APOS]) eqn:Hi.
    + apply andb_true_iff in Hi as [Hi1 Hi2]. exfalso. apply Hq.
      split; by apply occurs_singleton, includes_occurs.
    + by destruct publicId, systemId.
  - by destruct publicId, systemId.
Qed.

(** C10. With the flag set, a CDATA section fails to serialize exactly
    when its data contains ["]]>"]; otherwise, and always with the flag
    unset, it serializes to ["<![CDATA["], its data as it is, ["]]>"].  The
    legal-character test is not consulted: data that fails it (U+0000,
    say) goes through, where the same data as text, as a comment or as an
    attribute value is rejected. *)
Theorem cdata_rejects_terminator_only data :
  ((∃ e, _serializeNode (CData data) true = Throw e)
   ↔ occurs_in (lit "]]>") data)
  ∧ (_serializeNode (CData data) true
     = Ok (lit "<![CDATA[" ++ data ++ lit "]]>")
     ↔ ¬ occurs_in (lit "]]>") data)
  ∧ _serializeNode (CData data) false
    = Ok (lit "<![CDATA[" ++ data ++ lit "]]>")
  ∧ (xml_isLegalChar data = false → ¬ occurs_in (lit "]]>") data →
     _serializeNode (CData data) true
     = Ok (lit "<![CDATA[" ++ data ++ lit "]]>")
     ∧ _serializeNode (Text data) true = Throw InvalidTextData
     ∧ _serializeNode (Comment data) true = Throw InvalidCommentData
     ∧ _serializeAttributeValue (Some data) true
       = Throw InvalidAttributeValue).
Proof.
  cbn [_serializeNode]. unfold _serializeCData. cbn [andb].
  rewrite <- includes_false.
  split; [|split; [|split; [done|]]].
  - destruct (includes data (lit "]]>")) eqn:Hi.
    + apply includes_occurs in Hi. split; [done | by eexists].
    + split; [by intros [? ?] | by intros ?%includes_occurs; congruence].
  - by destruct (includes data (lit "]]>")).
  - intros Hl ->. split; [done|].
    unfold _serializeText, _serializeComment, _serializeAttributeValue.
    by rewrite Hl.
Qed.

End Specification.

(** C9. On the input [<root>hello</root], with no [>] to end the closing
    tag, the first call of [nextToken] gives the element token [root],
    with no attribute and not self-closing, the second the text token
    [hello], and the third fails with a lexing error. *)
Theorem lexer_incomplete_closing_tag :
  ∃ lexer1 lexer2 e,
    Lexer.nextToken (Lexer.mkLexer (lit "<root>hello</root") 0)
    = Ok (Lexer.ElementToken (lit "root") [] false, lexer1)
    ∧ Lexer.nextToken lexer1 = Ok (Lexer.TextToken (lit "hello"), lexer2)
    ∧ Lexer.nextToken lexer2 = Throw e.
Proof.
  exists (Lexer.mkLexer (lit "<root>hello</root") 6),
         (Lexer.mkLexer (lit "<root>hello</root") 11),
         (Lexer.MkLexError "unterminated closing tag").
  by vm_compute.
Qed.

(** ** The properties at concrete trees, with the character classes of
    XML 1.0 *)

Section Concrete.
#[local] Existing Instance XML10.algorithm.

(** An element that no XML document could hold, its checked
    serialization refused and its unchecked one plain concatenation. *)
Lemma wellformedness_gating_witness :
  let node :=
    Element (lit "a:b")
      [mkAttr (lit "x") (Some (lit "1<2")); mkAttr (lit "x") None]
      [Comment (lit "a--b"); Text (lit "R&D" ++ [0%N]); CData (lit "]]>")] in
  Violation node ∧ supported node
  ∧ _serializeNode node false = Ok (markup node)
  ∧ ∃ e, _serializeNode node true = Throw e ∧ conformance_failure e.
Proof.
  intros node.
  assert (Hv : Violation node).
  { apply V_element_colon. by exists (lit "a"), (lit "b"). }
  assert (Hs : supported node) by reflexivity.
  split; [exact Hv|]. split; [exact Hs|].
  exact (wellformedness_gating node Hv Hs).
Defined.

Lemma duplicate_attribute_rejected_witness :
  let a := mkAttr (lit "id") (Some (lit "1")) in
  let b := mkAttr (lit "id") (Some (lit "2")) in
  let attrs := [a; mkAttr (lit "x") (Some (lit "y")); b] in
  (0 < 2 ∧ attrs !! 0 = Some a ∧ attrs !! 2 = Some b
   ∧ localName a = localName b)
  ∧ (∃ e, _serializeAttributes attrs true = Throw e)
  ∧ (∃ e, _serializeNode (Element (lit "e") attrs []) true = Throw e)
  ∧ (∀ r, _serializeAttributes (take 2 attrs) true = Ok r →
          _serializeAttributes attrs true = Throw DuplicateAttributes)
  ∧ _serializeAttributes attrs false
    = Ok (concat (attribute_markup <$> attrs)).
Proof.
  intros a b attrs.
  split; [repeat split; lia|].
  apply (duplicate_attribute_rejected (lit "e") attrs [] 0 2 a b);
    [lia | reflexivity | reflexivity | reflexivity].
Defined.

Lemma document_without_element_witness :
  let cs := [Comment (lit " prolog ");
             DocumentType (lit "root") empty empty;
             ProcessingInstruction (lit "target") (lit "data")] in
  Forall supported cs
  ∧ _serializeNode (Document None cs) true = Throw MissingDocumentElement
  ∧ ∃ ss, Forall2 (λ c s, _serializeNode c false = Ok s) cs ss
      ∧ _serializeNode (Document None cs) false = Ok (concat ss).
Proof.
  intros cs.
  assert (Hs : Forall supported cs) by (repeat constructor).
  split; [exact Hs|]. exact (document_without_element cs Hs).
Defined.

Lemma doctype_forms_witness :
  let name := lit "html" in
  let publicId := lit "-//W3C//DTD HTML 4.01//EN" in
  let systemId := lit "http://www.w3.org/TR/html4/strict.dtd" in
  (true = true →
   xml_isPubidChar publicId = true ∧ xml_isLegalChar systemId = true
   ∧ ¬ (QUOT ∈ systemId ∧ APOS ∈ systemId))
  ∧ _serializeNode (DocumentType name publicId systemId) true
    = Ok (lit "<!DOCTYPE " ++ name ++ lit " PUBLIC " ++ [QUOT] ++ publicId
          ++ [QUOT] ++ lit " " ++ [QUOT] ++ systemId ++ [QUOT] ++ lit ">").
Proof.
  intros name publicId systemId.
  assert (Hchecks : true = true →
    xml_isPubidChar publicId = true ∧ xml_isLegalChar systemId = true
    ∧ ¬ (QUOT ∈ systemId ∧ APOS ∈ systemId)).
  { intros _. split; [reflexivity|]. split; [reflexivity|].
    intros [Hq%occurs_singleton _]. revert Hq. by apply includes_false. }
  split; [exact Hchecks|].
  destruct (doctype_forms name publicId systemId true Hchecks)
    as (out & -> & Hboth & _).
  f_equal. by apply Hboth.
Defined.

Lemma cdata_rejects_terminator_only_witness :
  let data := [0%N] in
  xml_isLegalChar data = false ∧ ¬ occurs_in (lit "]]>") data
  ∧ _serializeNode (CData data) true
    = Ok (lit "<![CDATA[" ++ data ++ lit "]]>")
  ∧ _serializeNode (Text data) true = Throw InvalidTextData
  ∧ _serializeNode (Comment data) true = Throw InvalidCommentData
  ∧ _serializeAttributeValue (Some data) true = Throw InvalidAttributeValue.
Proof.
  intros data.
  assert (Hl : xml_isLegalChar data = false) by reflexivity.
  assert (Ho : ¬ occurs_in (lit "]]>") data)
    by (by apply includes_false).
  split; [exact Hl|]. split; [exact Ho|].
  exact (proj2 (proj2 (proj2 (cdata_rejects_terminator_only data))) Hl Ho).
Defined.

Lemma element_markup_shape_witness :
  let attrs := [mkAttr (lit "att") (Some (lit "val"))] in
  let a := lit " att=" ++ [QUOT] ++ lit "val" ++ [QUOT] in
  (∀ rwf, _serializeNode (Element (lit "node") attrs []) rwf
          = Ok (lit "<node" ++ a ++ lit "/>"))
  ∧ (∀ rwf, _serializeNode
              (Element (lit "root") attrs
                 [Text (lit "a<b"); Element (lit "node") [] []]) rwf
            = Ok (lit "<root" ++ a ++ lit ">" ++ lit "a&lt;b" ++ lit "<node/>"
                  ++ lit "</root>")).
Proof.
  intros attrs a. split; intros rwf.
  - apply element_markup_shape. split; [by destruct rwf|].
    exists a. split; [by destruct rwf | reflexivity].
  - apply element_markup_shape. split; [by destruct rwf|].
    exists a. split; [by destruct rwf|].
    exists [lit "a&lt;b"; lit "<node/>"]. split; [|reflexivity].
    repeat constructor; by destruct rwf.
Defined.

(** The duplicate check asks [in] of an object literal, which also
    answers for the names that every object inherits: an attribute of
    such a name is refused where it stands alone. *)
Example inherited_name_taken_for_duplicate :
  _serializeAttributes [mkAttr (lit "constructor") (Some (lit "x"))] true
  = Throw DuplicateAttributes
  ∧ _serializeAttributes [mkAttr (lit "constructor") (Some (lit "x"))] false
    = Ok (lit " constructor=" ++ [QUOT] ++ lit "x" ++ [QUOT]).
Proof. by vm_compute. Qed.

(** With the flag unset a comment goes out as it is. *)
Example unchecked_comment :
  _serializeNode (Comment (lit "a--b-")) false = Ok (lit "<!--a--b--->")
  ∧ _serializeNode (Comment (lit "a--b-")) true = Throw InvalidCommentData.
Proof. by vm_compute. Qed.

End Concrete.

(** * Further properties of the serializer *)

Section Acceptance.
Context `{XMLAlgorithm}.

Lemma js_in_false (k : jsstring) (m : gmap jsstring bool) :
  js_in k m = false ↔ m !! k = None ∧ k ∉ Object_prototype.
Proof.
  unfold js_in. rewrite orb_false_iff, !bool_decide_eq_false.
  by rewrite <- eq_None_not_Some.
Qed.

Lemma _serializeAttributes_output attrs rwf out :
  _serializeAttributes attrs rwf = Ok out →
  out = concat (attribute_markup <$> attrs).
Proof.
  destruct rwf.
  - intros Ha. by apply _serializeAttributes_checked in Ha as (_ & _ & ->).
  - rewrite _serializeAttributes_unchecked. by intros [= <-].
Qed.

Lemma for_each_child_markup (f : Node → result Error jsstring) cs init out :
  Forall (λ c, ∀ s, f c = Ok s → s = markup c ∧ supported c) cs →
  for_each_child f cs init = Ok out →
  out = init ++ concat (markup <$> cs) ∧ Forall supported cs.
Proof.
  intros HF (ss & H2 & ->)%for_each_child_inv.
  revert HF. induction H2 as [|c s cs ss Hc _ IH]; intros HF.
  - done.
  - apply Forall_cons in HF as [Hhd Htl].
    destruct (Hhd s Hc) as [-> Hs]. destruct (IH Htl) as [Heq HF'].
    apply app_inv_head in Heq. split; [|by constructor].
    simpl. by rewrite Heq.
Qed.

(** Whatever the flag, a serialization that succeeds is the plain
    concatenation of a tree of supported nodes. *)
Lemma _serializeNode_output node rwf out :
  _serializeNode node rwf = Ok out → out = markup node ∧ supported node.
Proof.
  revert out.
  induction node as [ln attrs cs IH|de cs IH|data|data|cs IH|name p s|target data|data|k]
    using Node_children_ind; intros out.
  - rewrite _serializeNode_Element. unfold supported.
    rewrite first_unsupported_Element, first_unsupported_among_None.
    destruct (rwf && _); [done|].
    destruct (_serializeAttributes attrs rwf) as [a|e] eqn:Ha; [|done].
    apply _serializeAttributes_output in Ha as ->.
    cbn [mbind result_bind]. destruct cs as [|c cs].
    + intros [= <-]. split; [by reassoc | constructor].
    + destruct (for_each_child _ _ _) as [m|e] eqn:Hm; [|done].
      apply for_each_child_markup in Hm as [-> Hs]; [|done].
      cbn [mbind result_bind]. intros [= <-]. split; [by reassoc | done].
  - rewrite _serializeNode_Document. unfold supported.
    rewrite first_unsupported_Document, first_unsupported_among_None.
    destruct (rwf && _); [done|].
    intros Hm. by apply for_each_child_markup in Hm.
  - cbn [_serializeNode]. unfold _serializeComment.
    destruct (rwf && _); [done|]. by intros [= <-].
  - cbn [_serializeNode]. rewrite _serializeText_escape.
    destruct (rwf && _); [done|]. by intros [= <-].
  - cbn [_serializeNode]. unfold _serializeDocumentFragment, supported.
    rewrite first_unsupported_DocumentFragment, first_unsupported_among_None.
    intros Hm. by apply for_each_child_markup in Hm.
  - cbn [_serializeNode]. unfold _serializeDocumentType.
    destruct (rwf && negb _); [done|]. destruct (rwf && _); [done|].
    intros [= <-]. split; [|done]. by destruct p, s.
  - cbn [_serializeNode]. unfold _serializeProcessingInstruction.
    destruct (rwf && (includes target _ || _)); [done|].
    destruct (rwf && _); [done|]. by intros [= <-].
  - cbn [_serializeNode]. unfold _serializeCData.
    destruct (rwf && _); [done|]. by intros [= <-].
  - done.
Qed.

(** X1. The checks only ever refuse: a tree that serializes with the
    flag set serializes to the very same string with the flag unset. *)
Theorem checked_output_is_unchecked_output node out :
  _serializeNode node true = Ok out → _serializeNode node false = Ok out.
Proof.
  intros Ho. apply _serializeNode_output in Ho as [-> Hs].
  by apply _serializeNode_supported.
Qed.

Lemma attribute_rounds_accepts (attrs : list Attr) (r : jsstring)
    (m : gmap jsstring bool) :
  NoDup (localName <$> attrs) →
  Forall (λ a, js_in (localName a) m = false
               ∧ ¬ occurs_in (lit ":") (localName a)
               ∧ xml_isName (localName a) = true
               ∧ ∀ v, value a = Some v → xml_isLegalChar v = true) attrs →
  ∃ m', attribute_rounds true attrs (r, Some m)
        = Ok (r ++ concat (attribute_markup <$> attrs), Some m').
Proof.
  revert r m. induction attrs as [|a attrs IH]; intros r m Hnd HF.
  - exists m. simpl. by rewrite app_nil_r.
  - rewrite fmap_cons in Hnd. apply NoDup_cons in Hnd as [Hfresh Hnd].
    apply Forall_cons in HF as [(Hin & Hc & Hn & Hv) HF].
    cbn [attribute_rounds]. unfold attribute_step at 1.
    cbn [andb fmap option_fmap option_map]. rewrite Hin.
    apply includes_false in Hc. rewrite Hc, Hn. cbn [orb negb].
    assert (Hval : _serializeAttributeValue (value a) true
                   = Ok (escape_attribute (default empty (value a)))).
    { destruct (value a) as [v|] eqn:Hva; [|done].
      rewrite _serializeAttributeValue_escape, (Hv v) by done. done. }
    rewrite Hval. cbn [mbind result_bind].
    destruct (IH (r ++ attribute_markup a) (<[localName a := true]> m) Hnd)
      as [m' Hm'].
    + apply Forall_forall. intros b Hb. rewrite Forall_forall in HF.
      destruct (HF b Hb) as (Hjs & ?). split; [|done].
      apply js_in_false in Hjs as [Hnone Hp]. apply js_in_false.
      split; [|done]. rewrite lookup_insert_ne; [done|].
      intros Heq. apply Hfresh. rewrite Heq. by apply list_elem_of_fmap_2.
    + exists m'. unfold attribute_markup in *.
      rewrite <- app_assoc in Hm'. exact Hm'.
Qed.

Lemma checked_attributes_only_if attrs out :
  _serializeAttributes attrs true = Ok out →
  NoDup (localName <$> attrs)
  ∧ Forall (λ a, (localName a ∉ Object_prototype)
                 ∧ ¬ occurs_in (lit ":") (localName a)
                 ∧ xml_isName (localName a) = true
                 ∧ ∀ v, value a = Some v → xml_isLegalChar v = true) attrs.
Proof.
  rewrite _serializeAttributes_rounds.
  destruct (attribute_rounds _ _ _) as [st|e] eqn:Hr; [|done]. intros _.
  apply attribute_rounds_checked in Hr as (Hnd & HF & _).
  split; [done|]. eapply Forall_impl; [exact HF|].
  intros a ([_ ?]%js_in_false & ?). done.
Qed.

Lemma checked_attributes_if attrs :
  NoDup (localName <$> attrs) →
  Forall (λ a, (localName a ∉ Object_prototype)
               ∧ ¬ occurs_in (lit ":") (localName a)
               ∧ xml_isName (localName a) = true
               ∧ ∀ v, value a = Some v → xml_isLegalChar v = true) attrs →
  _serializeAttributes attrs true = Ok (concat (attribute_markup <$> attrs)).
Proof.
  intros Hnd HF. rewrite _serializeAttributes_rounds.
  destruct (attribute_rounds_accepts attrs empty ∅ Hnd) as [m' Hm'].
  - eapply Forall_impl; [exact HF|]. intros a (? & ?). split; [|done].
    by apply js_in_false.
  - by rewrite Hm'.
Qed.

(** X2. With the flag set the attributes of an element serialize exactly
    when no two share a local name, none is named like a property that
    every object inherits, none has a colon in its name or a name that is
    not an XML name, and no value fails the legal-character test. *)
Theorem checked_attributes_accepted attrs :
  (∃ out, _serializeAttributes attrs true = Ok out)
  ↔ NoDup (localName <$> attrs)
    ∧ Forall (λ a, (localName a ∉ Object_prototype)
                   ∧ ¬ occurs_in (lit ":") (localName a)
                   ∧ xml_isName (localName a) = true
                   ∧ ∀ v, value a = Some v → xml_isLegalChar v = true) attrs.
Proof.
  split.
  - intros [out Hout]. by eapply checked_attributes_only_if.
  - intros [Hnd HF]. eexists. by apply checked_attributes_if.
Qed.

Lemma inherited_fails node :
  InheritedName node → ∃ e, _serializeNode node true = Throw e.
Proof.
  induction 1 as [ln attrs cs a Ha Hp|ln attrs cs c Hc _ IH
                 |de cs c Hc _ IH|cs c Hc _ IH].
  - rewrite _serializeNode_Element.
    destruct (true && _); [by eexists|].
    destruct (_serializeAttributes attrs true) as [out|e] eqn:Hattrs;
      [|by eexists].
    exfalso. apply checked_attributes_only_if in Hattrs as [_ HF].
    rewrite Forall_forall in HF. by destruct (HF a Ha) as [? _].
  - rewrite _serializeNode_Element.
    destruct (true && _); [by eexists|].
    destruct (_serializeAttributes attrs true) as [out|e]; [|by eexists].
    cbn [mbind result_bind].
    destruct cs as [|c' cs']; [by apply elem_of_nil in Hc|].
    edestruct (for_each_child_throw (λ c, _serializeNode c true) (c' :: cs'))
      as [e He]; [by eapply child_throws|].
    rewrite He. by eexists.
  - rewrite _serializeNode_Document. destruct (true && _); [by eexists|].
    by eapply for_each_child_throw, child_throws.
  - cbn [_serializeNode]. unfold _serializeDocumentFragment.
    by eapply for_each_child_throw, child_throws.
Qed.

Lemma children_accepted (cs : list Node) :
  Forall (λ c, supported c ∧ ¬ Violation c ∧ ¬ InheritedName c →
               ∃ out, _serializeNode c true = Ok out) cs →
  Forall supported cs →
  (∀ c, c ∈ cs → ¬ Violation c) → (∀ c, c ∈ cs → ¬ InheritedName c) →
  ∀ init, ∃ out, for_each_child (λ c, _serializeNode c true) cs init = Ok out.
Proof.
  intros IH Hs Hv Hi init.
  assert (HF : ∃ ss, Forall2 (λ c s, _serializeNode c true = Ok s) cs ss).
  { clear init. induction cs as [|c cs IHcs]; [by exists []|].
    apply Forall_cons in IH as [IHc IH]. apply Forall_cons in Hs as [Hsc Hs].
    destruct IHc as [s Hc].
    { split; [done|]. split; [apply Hv | apply Hi]; by left. }
    destruct IHcs as [ss Hss]; try done.
    - intros c' ?. apply Hv. by right.
    - intros c' ?. apply Hi. by right.
    - exists (s :: ss). by constructor. }
  destruct HF as [ss HF]. rewrite (for_each_child_ok _ _ ss) by done.
  by eexists.
Qed.

(** X12. An attribute named like a property that every object inherits
    ([constructor], [toString], ...) makes the serialization of the tree
    it is in fail with the flag set, be it the only attribute of its
    element; with the flag unset a tree of supported nodes serializes as
    ever. *)
Theorem inherited_name_refused node :
  InheritedName node →
  (∃ e, _serializeNode node true = Throw e)
  ∧ (supported node → _serializeNode node false = Ok (markup node)).
Proof.
  intros Hi. split; [by apply inherited_fails|].
  apply _serializeNode_supported.
Qed.

(** X3. With the flag set a tree serializes exactly when all its nodes
    are of the eight categories, it violates no well-formedness
    constraint, and no attribute in it is named like a property that
    every object inherits. *)
Theorem checked_serialization_accepted node :
  (∃ out, _serializeNode node true = Ok out)
  ↔ supported node ∧ ¬ Violation node ∧ ¬ InheritedName node.
Proof.
  split.
  - intros [out Hout]. split; [|split].
    + by apply _serializeNode_output in Hout as [_ ?].
    + intros [e He]%violation_fails. congruence.
    + intros [e He]%inherited_fails. congruence.
  - induction node as [ln attrs cs IH|de cs IH|data|data|cs IH|name p s|target data|data|k]
      using Node_children_ind; intros (Hs & Hv & Hi).
    + unfold supported in Hs.
      rewrite first_unsupported_Element, first_unsupported_among_None in Hs.
      rewrite _serializeNode_Element. cbn [andb].
      destruct (includes ln (lit ":")) eqn:Hc.
      { exfalso. apply Hv, V_element_colon. by apply includes_occurs. }
      destruct (xml_isName ln) eqn:Hn;
        [|exfalso; by apply Hv, V_element_name].
      cbn [orb negb].
      rewrite (checked_attributes_if attrs).
      2: { apply NoDup_alt. intros i j x Hi' Hj'.
          apply list_lookup_fmap_Some in Hi' as (a & -> & Hia).
          apply list_lookup_fmap_Some in Hj' as (b & Hab & Hjb).
          destruct (Nat.lt_trichotomy i j) as [Hlt|[->|Hlt]]; [|done|];
            exfalso; apply Hv.
          + by eapply (V_attribute_duplicate _ _ _ i j a b).
          + by eapply (V_attribute_duplicate _ _ _ j i b a). }
      2: { apply Forall_forall. intros a Ha. split; [|split; [|split]].
          + intros Hp. apply Hi. by eapply I_attribute.
          + intros Hc'. apply Hv. by eapply V_attribute_colon.
          + destruct (xml_isName (localName a)) eqn:Hn'; [done|].
            exfalso. apply Hv. by eapply V_attribute_name.
          + intros v Hva. destruct (xml_isLegalChar v) eqn:Hl; [done|].
            exfalso. apply Hv. by eapply V_attribute_value. }
      cbn [mbind result_bind].
      destruct cs as [|c cs]; [by eexists|].
      edestruct (children_accepted (c :: cs) IH Hs) as [m Hm].
      * intros c' Hc' Hv'. apply Hv. by eapply V_child_of_element.
      * intros c' Hc' Hi'. apply Hi. by eapply I_child_of_element.
      * rewrite Hm. by eexists.
    + unfold supported in Hs.
      rewrite first_unsupported_Document, first_unsupported_among_None in Hs.
      rewrite _serializeNode_Document.
      destruct de as [e|]; [|exfalso; apply Hv, V_document_element].
      cbn [andb]. apply (children_accepted cs IH Hs).
      * intros c' Hc' Hv'. apply Hv. by eapply V_child_of_document.
      * intros c' Hc' Hi'. apply Hi. by eapply I_child_of_document.
    + cbn [_serializeNode]. unfold _serializeComment. cbn [andb].
      destruct (xml_isLegalChar data) eqn:Hl;
        [|exfalso; by apply Hv, V_comment_char].
      destruct (includes data (lit "--")) eqn:Hh.
      { exfalso. apply Hv, V_comment_hyphens. by apply includes_occurs. }
      destruct (endsWith data (lit "-")) eqn:He.
      { exfalso. apply Hv, V_comment_end. by apply endsWith_suffix. }
      by eexists.
    + cbn [_serializeNode]. unfold _serializeText. cbn [andb].
      destruct (xml_isLegalChar data) eqn:Hl;
        [by eexists | exfalso; by apply Hv, V_text].
    + unfold supported in Hs.
      rewrite first_unsupported_DocumentFragment,
        first_unsupported_among_None in Hs.
      cbn [_serializeNode]. unfold _serializeDocumentFragment.
      apply (children_accepted cs IH Hs).
      * intros c' Hc' Hv'. apply Hv. by eapply V_child_of_fragment.
      * intros c' Hc' Hi'. apply Hi. by eapply I_child_of_fragment.
    + cbn [_serializeNode]. unfold _serializeDocumentType. cbn [andb].
      destruct (xml_isPubidChar p) eqn:Hp;
        [|exfalso; by apply Hv, V_doctype_publicId].
      destruct (xml_isLegalChar s) eqn:Hl;
        [|exfalso; by apply Hv, V_doctype_systemId_char].
      cbn [negb orb].
      destruct (includes s [QUOT] && includes s [APOS]) eqn:Hq; [|by eexists].
      apply andb_true_iff in Hq as [Hq Ha].
      exfalso. apply Hv, V_doctype_systemId_quotes;
        by apply occurs_singleton, includes_occurs.
    + cbn [_serializeNode]. unfold _serializeProcessingInstruction.
      cbn [andb].
      destruct (includes target (lit ":")) eqn:Hc.
      { exfalso. apply Hv, V_pi_target_colon. by apply includes_occurs. }
      destruct (test_xml_i target) eqn:Hx;
        [exfalso; by apply Hv, V_pi_target_xml|].
      destruct (xml_isLegalChar data) eqn:Hl;
        [|exfalso; by apply Hv, V_pi_data_char].
      destruct (includes data (lit "?>")) eqn:He; [|by eexists].
      exfalso. apply Hv, V_pi_data_end. by apply includes_occurs.
    + cbn [_serializeNode]. unfold _serializeCData. cbn [andb].
      destruct (includes data (lit "]]>")) eqn:He; [|by eexists].
      exfalso. apply Hv, V_cdata_end. by apply includes_occurs.
    + done.
Qed.

(** X4. With the flag set a comment is refused, with the failure of
    comments, exactly when its data fails the legal-character test,
    contains [--] or ends with [-]; a comment that passes, and every
    comment with the flag unset, goes out as [<!--], its data, [-->]. *)
Theorem comment_checks data :
  (_serializeNode (Comment data) true = Throw InvalidCommentData
   ↔ xml_isLegalChar data = false ∨ occurs_in (lit "--") data
     ∨ lit "-" `suffix_of` data)
  ∧ (_serializeNode (Comment data) true
     = Ok (lit "<!--" ++ data ++ lit "-->")
     ↔ xml_isLegalChar data = true ∧ ¬ occurs_in (lit "--") data
       ∧ ¬ lit "-" `suffix_of` data)
  ∧ _serializeNode (Comment data) false = Ok (lit "<!--" ++ data ++ lit "-->").
Proof.
  cbn [_serializeNode]. unfold _serializeComment. cbn [andb].
  rewrite <- includes_occurs, <- endsWith_suffix.
  destruct (xml_isLegalChar data), (includes data (lit "--")),
    (endsWith data (lit "-")); cbn [negb orb];
    (split; [|split; [|done]]); split; try done; intuition congruence.
Qed.

Lemma ascii_lower_is c (a : ascii) :
  XML10.between (chr "a") (chr "z") (chr a) = true →
  ascii_lower c = chr a ↔ c = chr a ∨ c = (chr a - 32)%N.
Proof.
  unfold ascii_lower, XML10.between. intros Ha.
  apply andb_true_iff in Ha as [Ha1%N.leb_le Ha2%N.leb_le].
  change (chr "a") with 97%N in Ha1. change (chr "z") with 122%N in Ha2.
  change (chr "A") with 65%N. change (chr "Z") with 90%N.
  destruct ((65 <=? c)%N && (c <=? 90)%N) eqn:Hc.
  - apply andb_true_iff in Hc as [?%N.leb_le ?%N.leb_le]. lia.
  - apply andb_false_iff in Hc as [?%N.leb_gt| ?%N.leb_gt]; lia.
Qed.

(** The regular expression is that of the strings that are [xml] once
    put in lower case. *)
Lemma test_xml_i_lower s : test_xml_i s = true ↔ ascii_lower <$> s = lit "xml".
Proof.
  assert (Hch : ∀ c (a b : ascii),
    XML10.between (chr "a") (chr "z") (chr a) = true →
    chr b = (chr a - 32)%N →
    is_chr c a || is_chr c b = true ↔ ascii_lower c = chr a).
  { intros c a b Ha Hb. rewrite ascii_lower_is by done.
    rewrite orb_true_iff, !is_chr_true, Hb. done. }
  destruct s as [|x [|m [|l [|? ?]]]]; try (split; [done | by intros [=]]).
  unfold test_xml_i. rewrite !andb_true_iff.
  rewrite (Hch x "x" "X")%char, (Hch m "m" "M")%char, (Hch l "l" "L")%char
    by done.
  change (lit "xml") with [chr "x"; chr "m"; chr "l"]. cbn [fmap list_fmap].
  split; [by intros [[-> ->] ->] | by intros [= -> -> ->]].
Qed.

(** X5. With the flag set a processing instruction is refused for its
    target when the target contains a colon or is [xml] in any mix of
    cases, and otherwise for its data when the data fails the
    legal-character test or contains [?>]; the target is looked at
    first.  One that passes goes out as [<?target data?>]. *)
Theorem processing_instruction_checks target data :
  (_serializeNode (ProcessingInstruction target data) true
   = Throw InvalidPITarget
   ↔ occurs_in (lit ":") target ∨ ascii_lower <$> target = lit "xml")
  ∧ (_serializeNode (ProcessingInstruction target data) true
     = Throw InvalidPIData
     ↔ ¬ occurs_in (lit ":") target ∧ ascii_lower <$> target ≠ lit "xml"
       ∧ (xml_isLegalChar data = false ∨ occurs_in (lit "?>") data))
  ∧ (_serializeNode (ProcessingInstruction target data) true
     = Ok (lit "<?" ++ target ++ lit " " ++ data ++ lit "?>")
     ↔ ¬ occurs_in (lit ":") target ∧ ascii_lower <$> target ≠ lit "xml"
       ∧ xml_isLegalChar data = true ∧ ¬ occurs_in (lit "?>") data).
Proof.
  cbn [_serializeNode]. unfold _serializeProcessingInstruction. cbn [andb].
  rewrite <- !includes_occurs, <- test_xml_i_lower.
  destruct (includes target (lit ":")), (test_xml_i target),
    (xml_isLegalChar data), (includes data (lit "?>")); cbn [negb orb];
    (split; [|split]); split; try done; intuition congruence.
Qed.

(** X6. With the flag set a document type node is refused for its public
    identifier when that fails the PubidChar test, and otherwise for its
    system identifier when that fails the legal-character test or holds
    both a double and a single quote; the public identifier is looked at
    first. *)
Theorem doctype_checks name publicId systemId :
  (_serializeNode (DocumentType name publicId systemId) true
   = Throw InvalidDocTypePublicId
   ↔ xml_isPubidChar publicId = false)
  ∧ (_serializeNode (DocumentType name publicId systemId) true
     = Throw InvalidDocTypeSystemId
     ↔ xml_isPubidChar publicId = true
       ∧ (xml_isLegalChar systemId = false
          ∨ (QUOT ∈ systemId ∧ APOS ∈ systemId))).
Proof.
  cbn [_serializeNode]. unfold _serializeDocumentType. cbn [andb].
  rewrite <- !occurs_singleton, <- !includes_occurs.
  destruct (xml_isPubidChar publicId), (xml_isLegalChar systemId),
    (includes systemId [QUOT]), (includes systemId [APOS]); cbn [negb orb andb];
    split; split; try done; intuition congruence.
Qed.

(** X7. Whatever the flag, a document fragment serializes to [out]
    exactly when each child serializes to a string and [out] is those
    strings one after the other; a document that has a document element
    does the same. *)
Theorem fragment_is_concatenation cs rwf out :
  (_serializeNode (DocumentFragment cs) rwf = Ok out
   ↔ ∃ ss, Forall2 (λ c s, _serializeNode c rwf = Ok s) cs ss
       ∧ out = concat ss)
  ∧ ∀ e, _serializeNode (Document (Some e) cs) rwf
         = _serializeNode (DocumentFragment cs) rwf.
Proof.
  split.
  - cbn [_serializeNode]. unfold _serializeDocumentFragment. split.
    + intros Hm. by apply for_each_child_inv in Hm.
    + intros (ss & HF & ->). by rewrite (for_each_child_ok _ _ ss).
  - intros e. rewrite _serializeNode_Document. by destruct rwf.
Qed.

Lemma for_each_child_first_failure {E} (f : Node → result E jsstring)
    before c after init e :
  Forall (λ c, ∃ s, f c = Ok s) before → f c = Throw e →
  for_each_child f (before ++ c :: after) init = Throw e.
Proof.
  intros HF Hc. revert init.
  induction HF as [|b before [s Hb] _ IH]; intros init; simpl.
  - by rewrite Hc.
  - rewrite Hb. apply IH.
Qed.

(** X8. The failure reported is that of the first child, in tree order,
    that fails: when the children before [c] serialize and [c] fails
    with [e], so does the fragment, the document, and the element whose
    own name and attributes pass. *)
Theorem first_failure_in_tree_order rwf before c after e :
  Forall (λ c, ∃ s, _serializeNode c rwf = Ok s) before →
  _serializeNode c rwf = Throw e →
  _serializeNode (DocumentFragment (before ++ c :: after)) rwf = Throw e
  ∧ (∀ d, _serializeNode (Document (Some d) (before ++ c :: after)) rwf
          = Throw e)
  ∧ (∀ ln attrs,
       rwf && (includes ln (lit ":") || negb (xml_isName ln)) = false →
       (∃ a, _serializeAttributes attrs rwf = Ok a) →
       _serializeNode (Element ln attrs (before ++ c :: after)) rwf = Throw e).
Proof.
  intros HF Hc.
  pose proof (λ init, for_each_child_first_failure
    (λ c, _serializeNode c rwf) before c after init e HF Hc) as Hloop.
  split; [apply Hloop|]. split.
  - intros d. rewrite _serializeNode_Document.
    destruct rwf; cbn [andb]; apply Hloop.
  - intros ln attrs Hname [a Ha]. rewrite _serializeNode_Element.
    rewrite Hname, Ha. cbn [mbind result_bind].
    destruct (before ++ c :: after) eqn:Hl; [by destruct before|].
    by rewrite Hloop.
Qed.

Lemma not_in_literal (c : N) (s : jsstring) :
  includes s [c] = false → c ∉ s.
Proof. intros Hi Hc. by apply occurs_singleton, includes_occurs in Hc; congruence. Qed.

Lemma escape_text_avoids c data :
  c = chr "<" ∨ c = chr ">" → c ∉ escape_text data.
Proof.
  intros Hc. unfold escape_text.
  induction data as [|d data IH]; [apply not_elem_of_nil|].
  rewrite bind_cons, elem_of_app. intros [Hin|Hin]; [|done].
  revert Hin. unfold text_entity.
  destruct (is_chr d "&"); [by destruct Hc as [-> | ->]; apply not_in_literal|].
  destruct (is_chr d "<") eqn:Hlt;
    [by destruct Hc as [-> | ->]; apply not_in_literal|].
  destruct (is_chr d ">") eqn:Hgt;
    [by destruct Hc as [-> | ->]; apply not_in_literal|].
  intros ->%list_elem_of_singleton.
  destruct Hc as [-> | ->]; [by rewrite (proj2 (is_chr_true _ _)) in Hlt
                            | by rewrite (proj2 (is_chr_true _ _)) in Hgt].
Qed.

Lemma escape_attribute_avoids c v :
  c = QUOT ∨ c = chr "<" ∨ c = chr ">" → c ∉ escape_attribute v.
Proof.
  intros Hc. unfold escape_attribute.
  induction v as [|d v IH]; [apply not_elem_of_nil|].
  rewrite bind_cons, elem_of_app. intros [Hin|Hin]; [|done].
  revert Hin. unfold attribute_entity.
  destruct (is_chr d "&");
    [by destruct Hc as [-> | [-> | ->]]; apply not_in_literal|].
  destruct (N.eqb d QUOT) eqn:Hq;
    [by destruct Hc as [-> | [-> | ->]]; apply not_in_literal|].
  destruct (is_chr d "<") eqn:Hlt;
    [by destruct Hc as [-> | [-> | ->]]; apply not_in_literal|].
  destruct (is_chr d ">") eqn:Hgt;
    [by destruct Hc as [-> | [-> | ->]]; apply not_in_literal|].
  intros ->%list_elem_of_singleton.
  destruct Hc as [-> | [-> | ->]];
    [by rewrite N.eqb_refl in Hq
    | by rewrite (proj2 (is_chr_true _ _)) in Hlt
    | by rewrite (proj2 (is_chr_true _ _)) in Hgt].
Qed.

(** X9. What a text node serializes to holds no [<] and no [>]: text
    cannot open or close a tag. *)
Theorem serialized_text_has_no_angle_bracket data rwf out :
  _serializeNode (Text data) rwf = Ok out →
  (chr "<" ∉ out) ∧ (chr ">" ∉ out).
Proof.
  intros Ho. apply _serializeNode_output in Ho as [-> _]. cbn [markup].
  split; apply escape_text_avoids; auto.
Qed.

(** X10. What an attribute value serializes to holds no double quote, no
    [<] and no [>]: a value cannot end the quotes it is put between. *)
Theorem serialized_attribute_value_has_no_quote v rwf out :
  _serializeAttributeValue v rwf = Ok out →
  (QUOT ∉ out) ∧ (chr "<" ∉ out) ∧ (chr ">" ∉ out).
Proof.
  destruct v as [v|].
  - rewrite _serializeAttributeValue_escape.
    destruct (rwf && _); [done|]. intros [= <-].
    repeat split; apply escape_attribute_avoids; auto.
  - unfold _serializeAttributeValue. rewrite andb_false_r. intros [= <-].
    repeat split; apply not_elem_of_nil.
Qed.

Ltac entity_cases :=
  repeat match goal with
  | H : is_chr _ _ = true |- _ => apply is_chr_true in H; subst
  | H : N.eqb _ QUOT = true |- _ => apply N.eqb_eq in H; subst
  end;
  intros Heq; vm_compute in Heq; simplify_eq;
  repeat match goal with
  | H : is_chr ?c _ = false |- _ => by vm_compute in H
  | H : N.eqb ?c QUOT = false |- _ => by vm_compute in H
  end; try done.

Lemma text_entity_head c1 c2 r1 r2 :
  text_entity c1 ++ r1 = text_entity c2 ++ r2 → c1 = c2 ∧ r1 = r2.
Proof.
  unfold text_entity.
  destruct (is_chr c1 "&") eqn:?, (is_chr c1 "<") eqn:?,
    (is_chr c1 ">") eqn:?, (is_chr c2 "&") eqn:?, (is_chr c2 "<") eqn:?,
    (is_chr c2 ">") eqn:?; entity_cases.
Qed.

Lemma attribute_entity_head c1 c2 r1 r2 :
  attribute_entity c1 ++ r1 = attribute_entity c2 ++ r2 → c1 = c2 ∧ r1 = r2.
Proof.
  unfold attribute_entity.
  destruct (is_chr c1 "&") eqn:?, (N.eqb c1 QUOT) eqn:?,
    (is_chr c1 "<") eqn:?, (is_chr c1 ">") eqn:?,
    (is_chr c2 "&") eqn:?, (N.eqb c2 QUOT) eqn:?,
    (is_chr c2 "<") eqn:?, (is_chr c2 ">") eqn:?; entity_cases.
Qed.

Lemma entity_nonempty (f : N → jsstring) :
  (∀ c1 c2 r1 r2, f c1 ++ r1 = f c2 ++ r2 → c1 = c2 ∧ r1 = r2) →
  (∀ c : N, f c ≠ []) →
  ∀ d1 d2 : jsstring, d1 ≫= f = d2 ≫= f → d1 = d2.
Proof.
  intros Hhead Hne d1. induction d1 as [|c1 d1 IH]; intros [|c2 d2].
  - done.
  - rewrite bind_cons. intros Heq. symmetry in Heq.
    apply app_eq_nil in Heq as [Heq _]. by apply Hne in Heq.
  - rewrite bind_cons. intros Heq.
    apply app_eq_nil in Heq as [Heq _]. by apply Hne in Heq.
  - rewrite !bind_cons. intros [-> Heq]%Hhead. f_equal. by apply IH.
Qed.

(** X11. Escaping loses nothing: two text nodes that serialize to the
    same string have the same data, and so do two attribute values. *)
Theorem escaping_is_injective d1 d2 rwf1 rwf2 out :
  (_serializeNode (Text d1) rwf1 = Ok out →
   _serializeNode (Text d2) rwf2 = Ok out → d1 = d2)
  ∧ (_serializeAttributeValue (Some d1) rwf1 = Ok out →
     _serializeAttributeValue (Some d2) rwf2 = Ok out → d1 = d2).
Proof.
  split.
  - cbn [_serializeNode]. rewrite !_serializeText_escape.
    destruct (rwf1 && _), (rwf2 && _); try done. intros [= <-] [= Heq].
    symmetry in Heq. revert Heq. apply entity_nonempty.
    + apply text_entity_head.
    + intros c. unfold text_entity. by repeat case_match.
  - rewrite !_serializeAttributeValue_escape.
    destruct (rwf1 && _), (rwf2 && _); try done. intros [= <-] [= Heq].
    symmetry in Heq. revert Heq. apply entity_nonempty.
    + apply attribute_entity_head.
    + intros c. unfold attribute_entity. by repeat case_match.
Qed.

End Acceptance.

(** * Properties of the maps, the caches and the pool *)

Section JSMapFacts.
Context {K V : Type} `{EqDecision K}.
Implicit Types (m : list (K * V)) (k : K) (v : V).

Lemma get_set_eq m k v : JSMap.get (JSMap.set m k v) k = Some v.
Proof.
  induction m as [|[k' v'] m IH]; simpl.
  - by rewrite decide_True.
  - destruct (decide (k' = k)) as [->|Hne]; simpl.
    + by rewrite decide_True.
    + by rewrite decide_False.
Qed.

Lemma get_set_ne m k k' v :
  k ≠ k' → JSMap.get (JSMap.set m k v) k' = JSMap.get m k'.
Proof.
  intros Hne. induction m as [|[k0 v0] m IH]; simpl.
  - by rewrite decide_False.
  - destruct (decide (k0 = k)) as [->|?]; simpl; [|by rewrite IH].
    by rewrite !decide_False.
Qed.

Lemma get_delete_ne m k k' :
  k ≠ k' → JSMap.get (JSMap.delete m k) k' = JSMap.get m k'.
Proof.
  intros Hne. induction m as [|[k0 v0] m IH]; simpl; [done|].
  destruct (decide (k0 = k)) as [->|?]; simpl; [|by rewrite IH].
  by rewrite decide_False.
Qed.

Lemma get_None m k : JSMap.get m k = None ↔ k ∉ m.*1.
Proof.
  induction m as [|[k0 v0] m IH]; simpl.
  - split; [intros _; apply not_elem_of_nil | done].
  - rewrite not_elem_of_cons, <- IH.
    destruct (decide (k0 = k)) as [->|?]; [|intuition congruence].
    split; [done | by intros [? _]].
Qed.

Lemma get_delete_eq m k :
  NoDup m.*1 → JSMap.get (JSMap.delete m k) k = None.
Proof.
  induction m as [|[k0 v0] m IH]; simpl; [done|].
  intros [Hfresh Hnd]%NoDup_cons.
  destruct (decide (k0 = k)) as [->|?]; simpl.
  - by apply get_None.
  - rewrite decide_False by done. by apply IH.
Qed.

Lemma keys_delete_subseteq m k : (JSMap.delete m k).*1 ⊆ m.*1.
Proof.
  induction m as [|[k0 v0] m IH]; simpl; [done|].
  destruct (decide (k0 = k)); simpl; intros x Hx.
  - by apply elem_of_cons; right.
  - apply elem_of_cons in Hx as [->|Hx]; apply elem_of_cons; [by left|].
    right. by apply IH.
Qed.

Lemma NoDup_delete m k : NoDup m.*1 → NoDup (JSMap.delete m k).*1.
Proof.
  induction m as [|[k0 v0] m IH]; simpl; [done|].
  intros [Hfresh Hnd]%NoDup_cons.
  destruct (decide (k0 = k)); simpl; [done|].
  apply NoDup_cons. split; [|by apply IH].
  intros Hin. by apply Hfresh, (keys_delete_subseteq m k).
Qed.

Lemma length_set m k v :
  length (JSMap.set m k v)
  = match JSMap.get m k with
    | Some _ => length m
    | None => S (length m)
    end.
Proof.
  induction m as [|[k0 v0] m IH]; simpl; [done|].
  destruct (decide (k0 = k)); simpl; [done|].
  rewrite IH. by destruct (JSMap.get m k).
Qed.

Lemma length_delete_first m :
  length (JSMap.delete_first m) = length m - 1.
Proof.
  destruct m as [|[k0 v0] m]; simpl; [done|].
  rewrite decide_True by done. lia.
Qed.

Lemma length_delete_le m k : length (JSMap.delete m k) ≤ length m.
Proof.
  induction m as [|[k0 v0] m IH]; simpl; [done|].
  destruct (decide (k0 = k)); simpl; lia.
Qed.

(** Room is made before a new key comes in, so the map stays within the
    bound. *)
Lemma length_set_bounded m k v (bound : nat) :
  0 < bound → length m ≤ bound →
  length (JSMap.set (if bool_decide (bound ≤ JSMap.size m)
                     then JSMap.delete_first m else m) k v) ≤ bound.
Proof.
  intros Hpos Hle. rewrite length_set. unfold JSMap.size.
  case_bool_decide.
  - rewrite length_delete_first. destruct (JSMap.get _ k); lia.
  - destruct (JSMap.get m k); lia.
Qed.

End JSMapFacts.

Section NodeCacheFacts.
Import Cache.
Context {Node Value Traversal : Type} `{EqDecision Node}.
Implicit Types (c : NodeCache Node Value Traversal) (node : Node)
  (key : jsstring) (value : Value).

Lemma _maxCacheSize_pos : 0 < _maxCacheSize.
Proof. unfold _maxCacheSize. lia. Qed.

(** X13. What [setProperty] stores, [getProperty] gives back; the other
    keys of the node keep their values. *)
Theorem property_set_then_get c node key value :
  getProperty (setProperty c node key value) node key = Some value
  ∧ ∀ key', key' ≠ key →
      getProperty (setProperty c node key value) node key'
      = getProperty c node key'.
Proof.
  unfold getProperty, setProperty.
  destruct (JSMap.get (_propertyCache c) node) as [nodeCache|] eqn:Hget;
    cbn [_propertyCache]; rewrite !get_set_eq.
  - split; [done|]. intros key' Hne. by rewrite get_set_ne.
  - split; [done|]. intros key' Hne. by rewrite get_set_ne.
Qed.

(** X14. Neither cache of a [NodeCache] grows past [_maxCacheSize]
    nodes: a cache within the bound stays within it under every
    operation. *)
Theorem node_cache_stays_bounded c :
  JSMap.size (_propertyCache c) ≤ _maxCacheSize →
  JSMap.size (_traversalCache c) ≤ _maxCacheSize →
  ∀ c', (∃ node key value, c' = setProperty c node key value)
        ∨ (∃ node (given : option jsstring),
             c' = invalidateProperty c node given)
        ∨ (∃ node result, c' = setTraversal c node result)
        ∨ (∃ given : option Node, c' = invalidateTraversal c given)
        ∨ c' = clear c →
        JSMap.size (_propertyCache c') ≤ _maxCacheSize
        ∧ JSMap.size (_traversalCache c') ≤ _maxCacheSize.
Proof.
  unfold JSMap.size. intros Hp Ht c'
    [(node & key & value & ->)|[(node & given & ->)|[(node & result & ->)
    |[(given & ->)| ->]]]].
  - unfold setProperty.
    destruct (JSMap.get (_propertyCache c) node) as [nodeCache|] eqn:Hget;
      cbn [_propertyCache _traversalCache]; (split; [|done]).
    + by rewrite length_set, Hget.
    + rewrite length_set, get_set_eq.
      apply length_set_bounded; [apply _maxCacheSize_pos | done].
  - unfold invalidateProperty. destruct (key_given given) as [k|].
    + destruct (JSMap.get (_propertyCache c) node) as [nodeCache|] eqn:Hget;
        cbn [_propertyCache _traversalCache]; [|done].
      split; [|done]. by rewrite length_set, Hget.
    + cbn [_propertyCache _traversalCache]. split; [|done].
      etrans; [apply length_delete_le | done].
  - unfold setTraversal. cbn [_propertyCache _traversalCache].
    split; [done|]. apply length_set_bounded; [apply _maxCacheSize_pos | done].
  - destruct given as [node|];
      cbn [invalidateTraversal _propertyCache _traversalCache].
    + split; [done|]. etrans; [apply length_delete_le | done].
    + split; [done | simpl; lia].
  - cbn. split; lia.
Qed.

(** X15. A property set for a node that is not cached, in a full cache,
    puts out the node that was cached first, with all its properties,
    however lately those were read; every other node keeps its
    properties. *)
Theorem full_property_cache_evicts_oldest c oldest props rest node key value :
  _propertyCache c = (oldest, props) :: rest →
  NoDup (_propertyCache c).*1 →
  _maxCacheSize ≤ JSMap.size (_propertyCache c) →
  JSMap.get (_propertyCache c) node = None →
  (∀ key', getProperty (setProperty c node key value) oldest key' = None)
  ∧ (∀ node' key', node' ≠ oldest → node' ≠ node →
       getProperty (setProperty c node key value) node' key'
       = getProperty c node' key')
  ∧ JSMap.size (_propertyCache (setProperty c node key value))
    = JSMap.size (_propertyCache c).
Proof.
  intros Hc Hnd Hfull Hnone.
  assert (Hne : oldest ≠ node).
  { intros ->. rewrite Hc in Hnone. simpl in Hnone.
    by rewrite decide_True in Hnone. }
  unfold getProperty, setProperty. rewrite Hnone.
  rewrite bool_decide_eq_true_2 by done. cbn [_propertyCache].
  rewrite Hc in *. cbn [JSMap.delete_first JSMap.delete].
  rewrite decide_True by done.
  apply NoDup_cons in Hnd as [Hfresh Hnd].
  assert (Hrest : JSMap.get rest node = None).
  { simpl in Hnone. by rewrite decide_False in Hnone. }
  split; [|split].
  - intros key'. rewrite !get_set_ne by done.
    by rewrite (proj2 (get_None rest oldest)).
  - intros node' key' Hn1 Hn2. rewrite !get_set_ne by done.
    simpl. by rewrite decide_False.
  - unfold JSMap.size. rewrite !length_set, get_set_eq, Hrest. done.
Qed.

(** X16. [setProperty] for a node that is cached puts no node out, even
    in a full cache; [setTraversal] in a full cache puts out the node
    cached first even when the node it is called for is cached, and the
    cache is left one node short. *)
Theorem full_traversal_cache_evicts_needlessly
    c oldest first rest node old result :
  _traversalCache c = (oldest, first) :: rest →
  NoDup (_traversalCache c).*1 →
  _maxCacheSize ≤ JSMap.size (_traversalCache c) →
  node ≠ oldest →
  getTraversal c node = Some old →
  getTraversal (setTraversal c node result) oldest = None
  ∧ getTraversal (setTraversal c node result) node = Some result
  ∧ S (JSMap.size (_traversalCache (setTraversal c node result)))
    = JSMap.size (_traversalCache c)
  ∧ ∀ key value nodeCache node' key',
      JSMap.get (_propertyCache c) node = Some nodeCache → node' ≠ node →
      getProperty (setProperty c node key value) node' key'
      = getProperty c node' key'.
Proof.
  intros Hc Hnd Hfull Hne Hold.
  unfold getTraversal, setTraversal in *. cbn [_traversalCache].
  rewrite bool_decide_eq_true_2 by done.
  rewrite Hc in *. cbn [JSMap.delete_first JSMap.delete].
  rewrite decide_True by done.
  apply NoDup_cons in Hnd as [Hfresh Hnd].
  simpl in Hold. rewrite decide_False in Hold by done.
  split; [|split; [|split]].
  - rewrite get_set_ne by done. by apply get_None.
  - apply get_set_eq.
  - unfold JSMap.size. rewrite length_set, Hold. done.
  - intros key value nodeCache node' key' Hget Hn.
    unfold getProperty, setProperty. rewrite Hget. cbn [_propertyCache].
    by rewrite get_set_ne.
Qed.

(** X17. [invalidateProperty] with a key removes that key of the node and
    nothing else, and the node keeps its place in the cache, be it left
    without a property. *)
Theorem invalidate_one_property c node (ch : N) (more : jsstring) nodeCache :
  JSMap.get (_propertyCache c) node = Some nodeCache →
  NoDup nodeCache.*1 →
  let key := ch :: more in
  let c' := invalidateProperty c node (Some key) in
  getProperty c' node key = None
  ∧ (∀ key', key' ≠ key → getProperty c' node key' = getProperty c node key')
  ∧ (∀ node' key', node' ≠ node →
       getProperty c' node' key' = getProperty c node' key')
  ∧ JSMap.size (_propertyCache c') = JSMap.size (_propertyCache c)
  ∧ is_Some (JSMap.get (_propertyCache c') node).
Proof.
  intros Hget Hnd key c'. subst key c'.
  unfold getProperty, invalidateProperty. cbn [key_given].
  rewrite Hget. cbn [_propertyCache].
  split; [|split; [|split; [|split]]].
  - rewrite get_set_eq. by apply get_delete_eq.
  - intros key' Hne. rewrite get_set_eq. by apply get_delete_ne.
  - intros node' key' Hne. by rewrite get_set_ne.
  - unfold JSMap.size. by rewrite length_set, Hget.
  - rewrite get_set_eq. by eexists.
Qed.

(** X18. [invalidateProperty] with the empty string for a key does what
    it does without a key: every property of the node is gone, and those
    of the other nodes stay. *)
Theorem invalidate_with_empty_key c node :
  NoDup (_propertyCache c).*1 →
  invalidateProperty c node (Some empty) = invalidateProperty c node None
  ∧ (∀ key, getProperty (invalidateProperty c node (Some empty)) node key
            = None)
  ∧ (∀ node' key, node' ≠ node →
       getProperty (invalidateProperty c node (Some empty)) node' key
       = getProperty c node' key).
Proof.
  intros Hnd. split; [done|].
  unfold getProperty, invalidateProperty, empty.
  cbn [key_given _propertyCache].
  split.
  - intros key. by rewrite get_delete_eq.
  - intros node' key Hne. by rewrite get_delete_ne.
Qed.

(** X19. What [setTraversal] stores, [getTraversal] gives back, in a
    full cache too; [invalidateTraversal] for a node forgets that node
    and no other, and without a node forgets them all. *)
Theorem traversal_set_get_invalidate c node result :
  getTraversal (setTraversal c node result) node = Some result
  ∧ (NoDup (_traversalCache c).*1 →
     getTraversal (invalidateTraversal c (Some node)) node = None)
  ∧ (∀ node', node' ≠ node →
       getTraversal (invalidateTraversal c (Some node)) node'
       = getTraversal c node')
  ∧ (∀ node', getTraversal (invalidateTraversal c None) node' = None).
Proof.
  unfold getTraversal, setTraversal, invalidateTraversal.
  cbn [_traversalCache].
  split; [apply get_set_eq|]. split; [apply get_delete_eq|].
  split; [|done]. intros node' Hne. by apply get_delete_ne.
Qed.

End NodeCacheFacts.

Section AttributeCacheFacts.
Import Cache.
Context {Element Attribute : Type} `{EqDecision Element}.
Implicit Types (c : AttributeCache Element Attribute) (element : Element)
  (name : jsstring) (attr : Attribute).

(** X20. The attribute cache gives back the attribute that was set, keeps
    the other names of the element, and never holds more than
    [_maxCacheSize] elements: within the bound it stays within it. *)
Theorem attribute_cache_set_get_bounded c element name attr :
  get (set c element name attr) element name = Some attr
  ∧ (∀ name', name' ≠ name →
       get (set c element name attr) element name' = get c element name')
  ∧ (JSMap.size (_cache c) ≤ _maxCacheSize →
     JSMap.size (_cache (set c element name attr)) ≤ _maxCacheSize
     ∧ ∀ given : option jsstring,
         JSMap.size (_cache (invalidate c element given)) ≤ _maxCacheSize).
Proof.
  unfold get, set, JSMap.size.
  split; [|split].
  - destruct (JSMap.get (_cache c) element); cbn [_cache];
      by rewrite !get_set_eq.
  - intros name' Hne.
    destruct (JSMap.get (_cache c) element); cbn [_cache];
      rewrite !get_set_eq; by rewrite get_set_ne.
  - intros Hle. split.
    + destruct (JSMap.get (_cache c) element) eqn:Hget; cbn [_cache].
      * by rewrite length_set, Hget.
      * rewrite length_set, get_set_eq.
        apply length_set_bounded; [apply _maxCacheSize_pos | done].
    + intros given. unfold invalidate. destruct (key_given given).
      * destruct (JSMap.get (_cache c) element) eqn:Hget; cbn [_cache];
          [|done]. by rewrite length_set, Hget.
      * cbn [_cache]. etrans; [apply length_delete_le | done].
Qed.

End AttributeCacheFacts.

Section PoolFacts.
Import Pool.
Context {T : Type} `{PoolableNode T}.
Implicit Types (p : ObjectPool T) (heap : list T) (obj : Ref).

Lemma pop_snoc (a : list Ref) x : pop (a ++ [x]) = (Some x, a).
Proof. unfold pop. by rewrite reverse_snoc, reverse_involutive. Qed.

Lemma ObjectPool_eta p : mkObjectPool (_pool p) (_factory p) (_maxSize p) = p.
Proof. by destruct p. Qed.

Lemma release_with_room p obj heap :
  length (_pool p) < _maxSize p →
  release p obj heap
  = (mkObjectPool (_pool p ++ [obj]) (_factory p) (_maxSize p),
     alter _reset obj heap).
Proof. intros Hlt. unfold release. by rewrite bool_decide_eq_true_2. Qed.

Lemma acquire_snoc (a : list Ref) x factory maxSize heap :
  acquire (mkObjectPool (a ++ [x]) factory maxSize) heap
  = (x, mkObjectPool a factory maxSize, heap).
Proof.
  unfold acquire. cbn [_pool _factory _maxSize].
  rewrite bool_decide_eq_true_2 by (rewrite length_app; simpl; lia).
  by rewrite pop_snoc.
Qed.

(** X21. The pool never holds more than [_maxSize] objects: within the
    bound, [release] and [acquire] keep it there; an object released
    into a full pool is dropped as it is, without being reset. *)
Theorem pool_respects_capacity p obj heap :
  size p ≤ _maxSize p →
  size (release p obj heap).1 ≤ _maxSize (release p obj heap).1
  ∧ size (acquire p heap).1.2 ≤ size p
  ∧ _maxSize (acquire p heap).1.2 = _maxSize p
  ∧ (size p = _maxSize p → release p obj heap = (p, heap)).
Proof.
  unfold size. intros Hle. split; [|split; [|split]].
  - unfold release. case_bool_decide; cbn [fst _pool _maxSize]; [|done].
    rewrite length_app. simpl. lia.
  - unfold acquire. case_bool_decide as Hpos.
    + destruct (_pool p) as [|x a _] using rev_ind; [simpl in Hpos; lia|].
      rewrite pop_snoc. cbn [fst snd _pool]. rewrite length_app. lia.
    + by destruct (_factory p heap).
  - unfold acquire. case_bool_decide as Hpos.
    + destruct (_pool p) as [|x a _] using rev_ind; [simpl in Hpos; lia|].
      by rewrite pop_snoc.
    + by destruct (_factory p heap).
  - intros Heq. unfold release. rewrite bool_decide_eq_false_2; [done | lia].
Qed.

(** X22. The pool is a stack: after [a] and then [b] are released into a
    pool with room for both, the next two calls of [acquire] give [b]
    and then [a], both reset, and the pool is as it was.  Nothing looks
    whether an object is in the pool already: with [a] and [b] the same
    object, that object is handed out twice. *)
Theorem released_objects_come_back_in_reverse p a b heap :
  size p + 2 ≤ _maxSize p →
  let '(p1, heap1) := release p a heap in
  let '(p2, heap2) := release p1 b heap1 in
  heap2 = alter _reset b (alter _reset a heap)
  ∧ acquire p2 heap2 = (b, p1, heap2)
  ∧ acquire p1 heap2 = (a, p, heap2).
Proof.
  unfold size. intros Hroom.
  rewrite release_with_room by lia.
  rewrite release_with_room by (cbn [_pool _maxSize]; rewrite length_app; simpl; lia).
  cbn [_pool _factory _maxSize].
  split; [done|]. rewrite !acquire_snoc. by rewrite ObjectPool_eta.
Qed.

End PoolFacts.

Section TextNodeFacts.
Import Pool TextNode.
Implicit Types (pool : ObjectPool TextImpl) (heap : list TextImpl)
  (node document : Ref).

(** X23. A text node released into a pool with room loses its data, its
    name and its links, and keeps its document; [_create] then takes that
    very node again and gives it the new data and document, and the pool
    is as it was before the release. *)
Theorem recycled_text_node_is_clean pool heap node old document data :
  heap !! node = Some old →
  size pool < _maxSize pool →
  let '(pool1, heap1) := release pool node heap in
  heap1 !! node
  = Some (mkTextImpl empty empty None None None None None None
            (_nodeDocument old))
  ∧ _create pool1 heap1 document data
    = (node, pool,
       <[node := mkTextImpl data empty None None None None None None
                   (Some document)]> heap).
Proof.
  unfold size. intros Hold Hroom. rewrite release_with_room by done.
  split.
  - by rewrite list_lookup_alter_eq, Hold.
  - unfold _create. rewrite acquire_snoc, ObjectPool_eta. f_equal.
    apply list_eq. intros i. destruct (decide (i = node)) as [->|Hne].
    + rewrite !list_lookup_alter_eq, Hold.
      rewrite list_lookup_insert_eq by by eapply lookup_lt_Some. done.
    + by rewrite !list_lookup_alter_ne, list_lookup_insert_ne.
Qed.

(** X24. With nothing in the pool, [_create] builds a node: the store
    grows by that one node, which has the data and the document given,
    and no node that was there is touched; the pool stays empty. *)
Theorem text_node_created_when_pool_is_empty new_TextImpl heap document data :
  _create (textNodePool new_TextImpl) heap document data
  = (length heap, textNodePool new_TextImpl,
     heap ++ [mkTextImpl data (_name new_TextImpl)
                (_assignedSlot new_TextImpl) (_parent new_TextImpl)
                (_firstChild new_TextImpl) (_lastChild new_TextImpl)
                (_previousSibling new_TextImpl) (_nextSibling new_TextImpl)
                (Some document)])
  ∧ size (textNodePool new_TextImpl) = 0
  ∧ _maxSize (textNodePool new_TextImpl) = 1000.
Proof.
  split; [|done]. unfold _create, acquire, textNodePool, createNodePool,
    new_ObjectPool. cbn [_pool _factory factory length].
  rewrite (bool_decide_eq_false_2 (0 < 0)) by apply Nat.lt_irrefl.
  f_equal. apply list_eq. intros i.
  destruct (decide (i = length heap)) as [->|Hne].
  - rewrite !list_lookup_alter_eq, !lookup_app_r, Nat.sub_diag by lia. done.
  - rewrite !list_lookup_alter_ne by done.
    destruct (decide (i < length heap)).
    + by rewrite !lookup_app_l.
    + rewrite !lookup_ge_None_2; [done| |]; rewrite length_app; simpl; lia.
Qed.

End TextNodeFacts.

(** * The further properties at concrete inputs *)

Section MoreConcrete.
#[local] Existing Instance XML10.algorithm.
Import Pool Cache TextNode.

Lemma checked_output_is_unchecked_output_witness :
  let node := Element (lit "root") [mkAttr (lit "att") (Some (lit "val"))]
                [Text (lit "a<b"); Comment (lit " c ")] in
  let out := lit "<root att=" ++ [QUOT] ++ lit "val" ++ [QUOT]
             ++ lit ">a&lt;b<!-- c --></root>" in
  _serializeNode node true = Ok out ∧ _serializeNode node false = Ok out.
Proof.
  intros node out.
  assert (Hc : _serializeNode node true = Ok out) by by vm_compute.
  split; [exact Hc|]. exact (checked_output_is_unchecked_output node out Hc).
Defined.

Lemma first_failure_in_tree_order_witness :
  let before := [Text (lit "ok")] in
  let c := Comment (lit "a--b") in
  let after := [Unsupported 2] in
  Forall (λ c, ∃ s, _serializeNode c true = Ok s) before
  ∧ _serializeNode c true = Throw InvalidCommentData
  ∧ _serializeNode (DocumentFragment (before ++ c :: after)) true
    = Throw InvalidCommentData.
Proof.
  intros before c after.
  assert (Hb : Forall (λ c, ∃ s, _serializeNode c true = Ok s) before).
  { repeat constructor. by exists (lit "ok"). }
  assert (Hc : _serializeNode c true = Throw InvalidCommentData)
    by reflexivity.
  split; [exact Hb|]. split; [exact Hc|].
  exact (proj1 (first_failure_in_tree_order true before c after
                  InvalidCommentData Hb Hc)).
Defined.

Lemma serialized_text_has_no_angle_bracket_witness :
  _serializeNode (Text (lit "a<b>")) true = Ok (lit "a&lt;b&gt;")
  ∧ (chr "<" ∉ lit "a&lt;b&gt;") ∧ (chr ">" ∉ lit "a&lt;b&gt;").
Proof.
  assert (Ho : _serializeNode (Text (lit "a<b>")) true = Ok (lit "a&lt;b&gt;"))
    by by vm_compute.
  split; [exact Ho|].
  exact (serialized_text_has_no_angle_bracket _ _ _ Ho).
Defined.

Lemma serialized_attribute_value_has_no_quote_witness :
  let v := lit "<" ++ [QUOT] ++ lit ">" in
  let out := lit "&lt;&quot;&gt;" in
  _serializeAttributeValue (Some v) true = Ok out
  ∧ (QUOT ∉ out) ∧ (chr "<" ∉ out) ∧ (chr ">" ∉ out).
Proof.
  intros v out.
  assert (Ho : _serializeAttributeValue (Some v) true = Ok out)
    by by vm_compute.
  split; [exact Ho|].
  exact (serialized_attribute_value_has_no_quote _ _ _ Ho).
Defined.

Lemma escaping_is_injective_witness :
  _serializeNode (Text (lit "a&b")) true = Ok (lit "a&amp;b")
  ∧ _serializeNode (Text (lit "a&b")) false = Ok (lit "a&amp;b")
  ∧ lit "a&b" = lit "a&b".
Proof.
  assert (H1 : _serializeNode (Text (lit "a&b")) true = Ok (lit "a&amp;b"))
    by by vm_compute.
  assert (H2 : _serializeNode (Text (lit "a&b")) false = Ok (lit "a&amp;b"))
    by by vm_compute.
  split; [exact H1|]. split; [exact H2|].
  exact (proj1 (escaping_is_injective _ _ _ _ _) H1 H2).
Defined.

Lemma inherited_name_refused_witness :
  let node := Element (lit "a")
                [mkAttr (lit "constructor") (Some (lit "x"))] [] in
  InheritedName node
  ∧ (∃ e, _serializeNode node true = Throw e)
  ∧ (supported node → _serializeNode node false = Ok (markup node)).
Proof.
  intros node.
  assert (Hi : InheritedName node).
  { eapply I_attribute; [by left|]. by vm_compute; set_solver. }
  split; [exact Hi|]. exact (inherited_name_refused node Hi).
Defined.

Lemma node_cache_stays_bounded_witness :
  let c : NodeCache nat jsstring (list nat) := new_NodeCache in
  let c' := setProperty c 7 (lit "id") (lit "a") in
  JSMap.size (_propertyCache c) ≤ _maxCacheSize
  ∧ JSMap.size (_traversalCache c) ≤ _maxCacheSize
  ∧ JSMap.size (_propertyCache c') ≤ _maxCacheSize
  ∧ JSMap.size (_traversalCache c') ≤ _maxCacheSize.
Proof.
  intros c c'.
  assert (Hp : JSMap.size (_propertyCache c) ≤ _maxCacheSize)
    by (unfold _maxCacheSize; simpl; lia).
  assert (Ht : JSMap.size (_traversalCache c) ≤ _maxCacheSize)
    by (unfold _maxCacheSize; simpl; lia).
  split; [exact Hp|]. split; [exact Ht|].
  apply (node_cache_stays_bounded c Hp Ht c').
  left. by exists 7, (lit "id"), (lit "a").
Defined.

Lemma full_property_cache_evicts_oldest_witness :
  let props := [(lit "id", lit "a")] in
  let rest : list (nat * list (jsstring * jsstring)) :=
    (λ i, (i, props)) <$> seq 1 499 in
  let c : NodeCache nat jsstring (list nat) :=
    mkNodeCache ((0, props) :: rest) [] in
  let c' := setProperty c 500 (lit "id") (lit "b") in
  _maxCacheSize ≤ JSMap.size (_propertyCache c)
  ∧ NoDup (_propertyCache c).*1
  ∧ JSMap.get (_propertyCache c) 500 = None
  ∧ (∀ key', getProperty c' 0 key' = None)
  ∧ (∀ node' key', node' ≠ 0 → node' ≠ 500 →
       getProperty c' node' key' = getProperty c node' key')
  ∧ JSMap.size (_propertyCache c') = JSMap.size (_propertyCache c).
Proof.
  intros props rest c c'.
  assert (Hkeys : (_propertyCache c).*1 = 0 :: seq 1 499).
  { subst c rest. cbn [_propertyCache].
    rewrite fmap_cons, <- list_fmap_compose. apply (f_equal (cons 0)).
    etrans; [apply (list_fmap_ext _ id); by intros ? ? _ | apply list_fmap_id]. }
  assert (Hfull : _maxCacheSize ≤ JSMap.size (_propertyCache c)).
  { unfold JSMap.size. rewrite <- (length_fmap fst), Hkeys, length_cons,
      length_seq. done. }
  assert (Hnd : NoDup (_propertyCache c).*1).
  { rewrite Hkeys. apply NoDup_cons. split; [|apply NoDup_seq].
    rewrite elem_of_seq. lia. }
  assert (Hnone : JSMap.get (_propertyCache c) 500 = None).
  { apply get_None. rewrite Hkeys, elem_of_cons, elem_of_seq. lia. }
  split; [exact Hfull|]. split; [exact Hnd|]. split; [exact Hnone|].
  exact (full_property_cache_evicts_oldest c 0 props rest 500 (lit "id")
           (lit "b") eq_refl Hnd Hfull Hnone).
Defined.

Lemma full_traversal_cache_evicts_needlessly_witness :
  let rest : list (nat * list nat) := (λ i, (i, [i])) <$> seq 2 498 in
  let c : NodeCache nat jsstring (list nat) :=
    mkNodeCache [] ((0, [0]) :: (1, [1]) :: rest) in
  let c' := setTraversal c 1 [1; 2] in
  _maxCacheSize ≤ JSMap.size (_traversalCache c)
  ∧ NoDup (_traversalCache c).*1
  ∧ getTraversal c 1 = Some [1]
  ∧ getTraversal c' 0 = None
  ∧ getTraversal c' 1 = Some [1; 2]
  ∧ S (JSMap.size (_traversalCache c')) = JSMap.size (_traversalCache c).
Proof.
  intros rest c c'.
  assert (Hkeys : (_traversalCache c).*1 = 0 :: 1 :: seq 2 498).
  { subst c rest. cbn [_traversalCache].
    rewrite !fmap_cons, <- list_fmap_compose.
    apply (f_equal (λ l, 0 :: 1 :: l)).
    etrans; [apply (list_fmap_ext _ id); by intros ? ? _ | apply list_fmap_id]. }
  assert (Hfull : _maxCacheSize ≤ JSMap.size (_traversalCache c)).
  { unfold JSMap.size. rewrite <- (length_fmap fst), Hkeys, !length_cons,
      length_seq. done. }
  assert (Hnd : NoDup (_traversalCache c).*1).
  { rewrite Hkeys. apply NoDup_cons. split.
    { rewrite elem_of_cons, elem_of_seq. lia. }
    apply NoDup_cons. split; [|apply NoDup_seq]. rewrite elem_of_seq. lia. }
  assert (Hold : getTraversal c 1 = Some [1]) by reflexivity.
  destruct (full_traversal_cache_evicts_needlessly c 0 [0]
              ((1, [1]) :: rest) 1 [1] [1; 2]
              eq_refl Hnd Hfull (ltac:(lia)) Hold)
    as (Hgone & Hset & Hsize & _).
  split; [exact Hfull|]. split; [exact Hnd|]. split; [exact Hold|].
  split; [exact Hgone|]. split; [exact Hset | exact Hsize].
Defined.

Lemma invalidate_one_property_witness :
  let nodeCache := [(lit "id", lit "a"); (lit "class", lit "b")] in
  let c : NodeCache nat jsstring (list nat) :=
    mkNodeCache [(7, nodeCache)] [] in
  let c' := invalidateProperty c 7 (Some (lit "id")) in
  JSMap.get (_propertyCache c) 7 = Some nodeCache
  ∧ NoDup nodeCache.*1
  ∧ getProperty c' 7 (lit "id") = None
  ∧ getProperty c' 7 (lit "class") = Some (lit "b")
  ∧ JSMap.size (_propertyCache c') = 1.
Proof.
  intros nodeCache c c'.
  assert (Hget : JSMap.get (_propertyCache c) 7 = Some nodeCache)
    by reflexivity.
  assert (Hnd : NoDup nodeCache.*1).
  { apply (bool_decide_unpack _). by vm_compute. }
  destruct (invalidate_one_property c 7 (chr "i") (lit "d") nodeCache Hget Hnd)
    as (Hgone & Hkept & _ & Hsize & _).
  split; [exact Hget|]. split; [exact Hnd|]. split; [exact Hgone|].
  split; [|exact Hsize].
  exact (Hkept (lit "class") ltac:(by vm_compute)).
Defined.

Lemma invalidate_with_empty_key_witness :
  let c : NodeCache nat jsstring (list nat) :=
    mkNodeCache [(7, [(lit "id", lit "a"); (lit "class", lit "b")])] [] in
  NoDup (_propertyCache c).*1
  ∧ getProperty c 7 (lit "class") = Some (lit "b")
  ∧ getProperty (invalidateProperty c 7 (Some empty)) 7 (lit "class") = None.
Proof.
  intros c.
  assert (Hnd : NoDup (_propertyCache c).*1) by (repeat constructor; set_solver).
  split; [exact Hnd|]. split; [reflexivity|].
  exact (proj1 (proj2 (invalidate_with_empty_key c 7 Hnd)) (lit "class")).
Defined.

Lemma traversal_set_get_invalidate_witness :
  let c : NodeCache nat jsstring (list nat) :=
    mkNodeCache [] [(7, [1; 2]); (8, [3])] in
  NoDup (_traversalCache c).*1
  ∧ getTraversal c 7 = Some [1; 2]
  ∧ getTraversal (invalidateTraversal c (Some 7)) 7 = None.
Proof.
  intros c.
  assert (Hnd : NoDup (_traversalCache c).*1).
  { apply (bool_decide_unpack _). by vm_compute. }
  split; [exact Hnd|]. split; [reflexivity|].
  exact (proj1 (proj2 (traversal_set_get_invalidate c 7 []))  Hnd).
Defined.

Lemma attribute_cache_set_get_bounded_witness :
  let c : AttributeCache nat jsstring := new_AttributeCache in
  JSMap.size (_cache c) ≤ _maxCacheSize
  ∧ JSMap.size (_cache (set c 7 (lit "id") (lit "a"))) ≤ _maxCacheSize.
Proof.
  intros c.
  assert (Hle : JSMap.size (_cache c) ≤ _maxCacheSize)
    by (unfold _maxCacheSize; simpl; lia).
  split; [exact Hle|].
  exact (proj1 (proj2 (proj2
    (attribute_cache_set_get_bounded c 7 (lit "id") (lit "a"))) Hle)).
Defined.

Lemma pool_respects_capacity_witness :
  let node := mkTextImpl (lit "t") empty None (Some 3) None None None None None in
  let p : ObjectPool TextImpl := mkObjectPool [0] (factory node) 1 in
  size p ≤ _maxSize p
  ∧ size p = _maxSize p
  ∧ release p 1 [node; node] = (p, [node; node]).
Proof.
  intros node p.
  assert (Hle : size p ≤ _maxSize p) by (subst p; cbn; lia).
  split; [exact Hle|]. split; [reflexivity|].
  exact (proj2 (proj2 (proj2 (pool_respects_capacity p 1 [node; node] Hle)))
           eq_refl).
Defined.

Lemma released_objects_come_back_in_reverse_witness :
  let node := mkTextImpl (lit "t") empty None (Some 3) None None None None None in
  let p : ObjectPool TextImpl := mkObjectPool [] (factory node) 1000 in
  size p + 2 ≤ _maxSize p
  ∧ let '(p1, heap1) := release p 0 [node] in
    let '(p2, heap2) := release p1 0 heap1 in
    heap2 = alter _reset 0 (alter _reset 0 [node])
    ∧ acquire p2 heap2 = (0, p1, heap2)
    ∧ acquire p1 heap2 = (0, p, heap2).
Proof.
  intros node p.
  assert (Hroom : size p + 2 ≤ _maxSize p) by (subst p; cbn; lia).
  split; [exact Hroom|].
  exact (released_objects_come_back_in_reverse p 0 0 [node] Hroom).
Defined.

Lemma recycled_text_node_is_clean_witness :
  let old := mkTextImpl (lit "stale") (lit "n") (Some 9) (Some 3) None None
               (Some 4) (Some 5) (Some 1) in
  let pool : ObjectPool TextImpl := textNodePool old in
  let heap := [old; old] in
  heap !! 1 = Some old
  ∧ size pool < _maxSize pool
  ∧ let '(pool1, heap1) := release pool 1 heap in
    heap1 !! 1
    = Some (mkTextImpl empty empty None None None None None None
              (_nodeDocument old))
    ∧ _create pool1 heap1 2 (lit "fresh")
      = (1, pool,
         <[1 := mkTextImpl (lit "fresh") empty None None None None None None
                  (Some 2)]> heap).
Proof.
  intros old pool heap.
  assert (Hold : heap !! 1 = Some old) by reflexivity.
  assert (Hroom : size pool < _maxSize pool) by (subst pool; cbn; lia).
  split; [exact Hold|]. split; [exact Hroom|].
  exact (recycled_text_node_is_clean pool heap 1 old 2 (lit "fresh")
           Hold Hroom).
Defined.

End MoreConcrete.
